(** * Mikado: transcript normalisation, ORF loading and sublocus predicates

    A shallow embedding of the parts of [loci_objects/transcript.py] and
    [Mikado/loci_objects/superlocus.py] that the properties below are about.
    Python integers are unbounded, hence [Z]; Python lists are lists; Python
    sets are [gset]; dictionaries are [gmap]; exceptions are an outcome type
    that also carries the object state reached when the exception left the
    method. *)

From Stdlib Require Import ZArith String QArith.
From stdpp Require Import base decidable list sorting gmap sets strings.

Local Open Scope string_scope.
Local Open Scope list_scope.
Local Open Scope Z_scope.

(** ** Python helpers *)

(** Exceptions that the embedded methods can raise. *)
Inductive exn : Type :=
  | ModificationError
  | InvalidTranscript
  | UnboundLocalError
  | AttributeError
  | AssertionError
  | TypeError
  | ValueError
  | IndexError.

(** An interval as the code stores it: the tuple [(start, end)]. *)
Definition segment : Type := (Z * Z)%type.

(** [sum([s[1]-s[0]+1 for s in l])] *)
Definition seg_len (s : segment) : Z := s.2 - s.1 + 1.

Definition total_length (l : list segment) : Z :=
  foldr (fun s acc => seg_len s + acc) 0 l.

(** [sorted(l, key=...)]: Python's sort is stable; [le x y] is "key x <= key y".
    Insertion keeps an element in front of the equal ones that followed it. *)
Fixpoint insert_by {A : Type} (le : A -> A -> bool) (x : A) (l : list A) : list A :=
  match l with
  | [] => [x]
  | y :: r => if le x y then x :: y :: r else y :: insert_by le x r
  end.

Definition sorted_by {A : Type} (le : A -> A -> bool) (l : list A) : list A :=
  foldr (insert_by le) [] l.

(** [key=operator.itemgetter(0,1)] on [(start, end)] tuples. *)
Definition key01_le (a b : segment) : bool :=
  (a.1 <? b.1) || ((a.1 =? b.1) && (a.2 <=? b.2)).

(** [s in text] for strings: substring test. *)
Definition str_in (s text : string) : bool :=
  match String.index 0 s text with
  | Some _ => true
  | None => false
  end.

(** [x in l] for a list of strings. *)
Definition list_in (x : string) (l : list string) : bool :=
  bool_decide (x ∈ l).

(** ** Data model of [transcript.py] *)

Inductive strand_t : Type := Plus | Minus.

Global Instance strand_eq_dec : EqDecision strand_t.
Proof. solve_decision. Defined.

(** The first component of the typed segments held by [internal_orfs]; as
    Python strings they compare ["CDS" < "UTR" < "exon"]. *)
Inductive seg_kind : Type := CDS | UTR | exon.

Global Instance seg_kind_eq_dec : EqDecision seg_kind.
Proof. solve_decision. Defined.

Definition kind_rank (k : seg_kind) : Z :=
  match k with CDS => 0 | UTR => 1 | exon => 2 end.

Definition typed_segment : Type := (seg_kind * Z * Z)%type.

Definition ts_kind (x : typed_segment) : seg_kind := x.1.1.
Definition ts_start (x : typed_segment) : Z := x.1.2.
Definition ts_end (x : typed_segment) : Z := x.2.

(** [key=operator.itemgetter(1,2,0)] *)
Definition key120_le (a b : typed_segment) : bool :=
  (ts_start a <? ts_start b)
  || ((ts_start a =? ts_start b)
      && ((ts_end a <? ts_end b)
          || ((ts_end a =? ts_end b) && (kind_rank (ts_kind a) <=? kind_rank (ts_kind b))))).

(** A candidate ORF row (BED12-like, transcript coordinates).  [orf_id] is the
    row's primary key: two rows are the same object iff they are equal. *)
Record orf : Type := mk_orf {
  orf_id : Z;
  thickStart : Z;
  thickEnd : Z;
  orf_strand : option strand_t;
  orf_has_start_codon : bool;
  orf_has_stop_codon : bool;
  cds_len : Z
}.

Global Instance orf_eq_dec : EqDecision orf.
Proof. solve_decision. Defined.

(** The keys of the configuration that the transcript reads. *)
Record json_conf : Type := mk_conf {
  minimal_secondary_orf_length : Z;
  trust_strand : bool;
  blast_check : bool;
  minimal_hsp_overlap : Q;
  maximal_hsp_evalue : Q
}.

(** What [set_relative_properties] resets. *)
Record relative_properties : Type := mk_rel {
  retained_introns : list segment;
  retained_fraction : Q;
  exon_fraction : Q;
  intron_fraction : Q;
  cds_intron_fraction : Q;
  selected_cds_intron_fraction : Q
}.

Record transcript : Type := mk_transcript {
  tid : string;                       (* [id], with the alias [tid] *)
  parent : list string;
  feature : string;
  start : Z;
  end_ : Z;
  strand : option strand_t;           (* [None], ["+"] or ["-"] *)
  exons : list segment;
  combined_cds : list segment;
  combined_utr : list segment;
  introns : gset segment;
  splices : gset Z;
  finalized : bool;
  selected_internal_orf_index : option nat;
  has_start_codon : bool;
  has_stop_codon : bool;
  internal_orfs : list (list typed_segment);
  segments : list typed_segment;
  loaded_bed12 : list orf;
  json_dict : option json_conf;
  relative : relative_properties
}.

(** A record of a GFF/GTF line, as far as [addExon] reads it. *)
Record gffLine : Type := mk_gff {
  g_parent : list string;
  g_feature : string;
  g_start : Z;
  g_end : Z
}.

(** How a method call on a transcript ends: it returns, or an exception
    leaves it; in both cases [t] is the state of the object at that point. *)
Inductive outcome : Type :=
  | Returned (t : transcript)
  | Raised (e : exn) (t : transcript).

(** Field updates. *)
Definition with_lists (ex cds utr : list segment) (t : transcript) : transcript :=
  mk_transcript (tid t) (parent t) (feature t) (start t) (end_ t) (strand t)
    ex cds utr (introns t) (splices t) (finalized t)
    (selected_internal_orf_index t) (has_start_codon t) (has_stop_codon t)
    (internal_orfs t) (segments t) (loaded_bed12 t) (json_dict t) (relative t).

Definition with_junctions (i : gset segment) (s : gset Z) (t : transcript) : transcript :=
  mk_transcript (tid t) (parent t) (feature t) (start t) (end_ t) (strand t)
    (exons t) (combined_cds t) (combined_utr t) i s (finalized t)
    (selected_internal_orf_index t) (has_start_codon t) (has_stop_codon t)
    (internal_orfs t) (segments t) (loaded_bed12 t) (json_dict t) (relative t).

Definition with_codons (b e : bool) (t : transcript) : transcript :=
  mk_transcript (tid t) (parent t) (feature t) (start t) (end_ t) (strand t)
    (exons t) (combined_cds t) (combined_utr t) (introns t) (splices t) (finalized t)
    (selected_internal_orf_index t) b e
    (internal_orfs t) (segments t) (loaded_bed12 t) (json_dict t) (relative t).

Definition with_orfs (segs : list typed_segment) (orfs : list (list typed_segment))
    (idx : option nat) (t : transcript) : transcript :=
  mk_transcript (tid t) (parent t) (feature t) (start t) (end_ t) (strand t)
    (exons t) (combined_cds t) (combined_utr t) (introns t) (splices t) (finalized t)
    idx (has_start_codon t) (has_stop_codon t)
    orfs segs (loaded_bed12 t) (json_dict t) (relative t).

Definition with_state (f : string) (fin : bool) (r : relative_properties)
    (t : transcript) : transcript :=
  mk_transcript (tid t) (parent t) f (start t) (end_ t) (strand t)
    (exons t) (combined_cds t) (combined_utr t) (introns t) (splices t) fin
    (selected_internal_orf_index t) (has_start_codon t) (has_stop_codon t)
    (internal_orfs t) (segments t) (loaded_bed12 t) (json_dict t) r.

(** *** Properties and metrics *)

Definition cdna_length (t : transcript) : Z := total_length (exons t).
Definition combined_cds_length (t : transcript) : Z := total_length (combined_cds t).
Definition combined_utr_length (t : transcript) : Z := total_length (combined_utr t).

Definition monoexonic (t : transcript) : bool := (length (exons t) =? 1)%nat.

Definition number_internal_orfs (t : transcript) : nat := length (internal_orfs t).

(** [max_intron_length] measures an intron as [intron[1]+1-intron[0]]. *)
Definition intron_len (i : segment) : Z := i.2 + 1 - i.1.

Definition introns_length (t : transcript) : Z :=
  foldr (fun i acc => intron_len i + acc) 0 (elements (introns t)).

(** [__len__]: the span of the transcript on the genome. *)
Definition span (t : transcript) : Z := end_ t - start t + 1.

(** *** [addExon] *)

Definition addExon (t : transcript) (line : gffLine) : outcome :=
  if finalized t then Raised ModificationError t
  else if negb (list_in (tid t) (g_parent line)) then Raised InvalidTranscript t
  else
    let seg := (Z.min (g_start line) (g_end line), Z.max (g_start line) (g_end line)) in
    if String.eqb (g_feature line) "CDS" then
      Returned (with_lists (exons t) (combined_cds t ++ [seg]) (combined_utr t) t)
    else if str_in "combined_utr" (g_feature line) || str_in "UTR" (g_feature line) then
      Returned (with_lists (exons t) (combined_cds t) (combined_utr t ++ [seg]) t)
    else if String.eqb (g_feature line) "exon" then
      Returned (with_lists (exons t ++ [seg]) (combined_cds t) (combined_utr t) t)
    else if String.eqb (g_feature line) "start_codon" then
      Returned (with_codons true (has_stop_codon t) t)
    else if String.eqb (g_feature line) "stop_codon" then
      (* no [return] here: control reaches [store.append] with [store] unbound *)
      Raised UnboundLocalError (with_codons (has_start_codon t) true t)
    else Raised InvalidTranscript t.

(** *** [finalize] *)

(** The loop over consecutive exons ([exonA, exonB = self.exons[index:index+2]]):
    it raises on the first pair with [exonA[1] >= exonB[0]] ([inl], with what
    was appended so far), and otherwise appends the intron and its two splice
    positions. *)
Fixpoint scan_junctions (ex : list segment) (ints : list segment) (spl : list Z)
    : (list segment * list Z) + (list segment * list Z) :=
  match ex with
  | exonA :: ((exonB :: _) as rest) =>
      if decide (exonA.2 >= exonB.1) then inl (ints, spl)
      else scan_junctions rest (ints ++ [(exonA.2 + 1, exonB.1 - 1)])
                               (spl ++ [exonA.2 + 1; exonB.1 - 1])
  | _ => inr (ints, spl)
  end.

(** Codon flags inferred from UTR lying before or after the CDS.  Both tests
    index [combined_cds]; [finalize] has already rejected UTR without CDS, so
    the indexing cannot fail where this is called. *)
Definition infer_codons (t : transcript) : transcript :=
  let t1 :=
    match head (combined_utr t), head (combined_cds t) with
    | Some u, Some c =>
        if decide (u.1 < c.1) then
          match strand t with
          | Some Plus => with_codons true (has_stop_codon t) t
          | Some Minus => with_codons (has_start_codon t) true t
          | None => t
          end
        else t
    | _, _ => t
    end in
  match last (combined_utr t1), last (combined_cds t1) with
  | Some u, Some c =>
      if decide (u.2 > c.2) then
        match strand t1 with
        | Some Plus => with_codons (has_start_codon t1) true t1
        | Some Minus => with_codons true (has_stop_codon t1) t1
        | None => t1
        end
      else t1
  | _, _ => t1
  end.

(** The setter of [selected_internal_orf_index] for an integer index. *)
Definition set_selected_internal_orf_index (i : nat) (t : transcript) : outcome :=
  if decide (length (internal_orfs t) <= i)%nat then Raised IndexError t
  else Returned (with_orfs (segments t) (internal_orfs t) (Some i) t).

(** Reading the property [selected_internal_orf] (its value is discarded by
    [finalize], its effects are not). *)
Definition read_selected_internal_orf (t : transcript) : outcome :=
  if decide (length (combined_cds t) = 0%nat) then set_selected_internal_orf_index 0 t
  else
    match selected_internal_orf_index t with
    | None => Raised TypeError t
    | Some i =>
        if decide (i < length (internal_orfs t))%nat then Returned t
        else Raised IndexError t
    end.

Definition and_then (o : outcome) (k : transcript -> outcome) : outcome :=
  match o with
  | Returned t => k t
  | Raised e t => Raised e t
  end.

(** [set_relative_properties] *)
Definition default_relative : relative_properties :=
  mk_rel [] 0%Q 1%Q 1%Q 1%Q 1%Q.

Definition build_segments (t : transcript) : list typed_segment :=
  sorted_by key120_le
    (map (fun e : segment => (exon, e.1, e.2)) (exons t)
     ++ map (fun c : segment => (CDS, c.1, c.2)) (combined_cds t)
     ++ map (fun u : segment => (UTR, u.1, u.2)) (combined_utr t)).

(** Lines 377-406: what follows the loop over the exons, given the introns and
    the splice positions that the loop appended. *)
Definition complete_finalize (ints : list segment) (spl : list Z) (t : transcript)
    : outcome :=
  let t := with_lists (exons t) (sorted_by key01_le (combined_cds t))
                      (sorted_by key01_le (combined_utr t)) t in
  let t := infer_codons t in
  let segs := build_segments t in
  let t := with_orfs segs [segs] (selected_internal_orf_index t) t in
  and_then (if decide (combined_cds_length t > 0)
            then set_selected_internal_orf_index 0 t else Returned t)
    (fun t =>
       let t := with_junctions (list_to_set ints) (list_to_set spl) t in
       and_then (read_selected_internal_orf t)
         (fun t =>
            let f := if decide (0 < length (combined_cds t))%nat
                     then "mRNA" else feature t in
            Returned (with_state f true default_relative t))).

Definition finalize (t : transcript) : outcome :=
  if finalized t then Returned t else
  let t := with_junctions ∅ ∅ t in
  if decide (length (exons t) = 0%nat) then Raised InvalidTranscript t else
  if decide ((1 < length (exons t))%nat /\ strand t = None) then Raised InvalidTranscript t else
  if decide (combined_utr t <> [] /\ combined_cds t = []) then Raised InvalidTranscript t else
  if decide (~ ((combined_cds_length t = combined_utr_length t /\ combined_utr_length t = 0)
                \/ cdna_length t = combined_utr_length t + combined_cds_length t))
  then Raised InvalidTranscript t else
  let t := with_lists (sorted_by key01_le (exons t)) (combined_cds t) (combined_utr t) t in
  match head (exons t), last (exons t) with
  | Some first_exon, Some last_exon =>
      if decide (first_exon.1 <> start t \/ last_exon.2 <> end_ t)
      then Raised InvalidTranscript t else
      match scan_junctions (exons t) [] [] with
      | inl (ints, spl) =>
          Raised InvalidTranscript (with_junctions (list_to_set ints) (list_to_set spl) t)
      | inr (ints, spl) => complete_finalize ints spl t
      end
  | _, _ => Raised InvalidTranscript t   (* the [IndexError] is caught and re-raised *)
  end.

(** *** Class methods on intervals and ORFs *)

(** [overlap]: [min] of the ends minus [max] of the starts. *)
Definition overlap (first second : segment) : Z :=
  let lend := Z.max first.1 second.1 in
  let rend := Z.min first.2 second.2 in
  rend - lend.

(** [is_overlapping_cds]: the edge predicate of the ORF graph. *)
Definition is_overlapping_cds (first second : orf) : bool :=
  if decide (first = second \/ orf_strand first <> orf_strand second
             \/ overlap (thickStart first, thickEnd first)
                        (thickStart second, thickEnd second) < 0)
  then false else true.

(** [is_intersecting] on [(start, end)] tuples. *)
Definition is_intersecting (first second : segment) : bool :=
  if decide (first = second \/ overlap first second < 0) then false else true.

(** Modelled from the spec: [abstractlocus.find_communities] (the module
    [abstractlocus] is not among the sources) returns the connected components
    of the undirected graph whose vertices are the given objects and whose
    edges are the pairs satisfying [inters].  Components are listed by their
    earliest member.  [find_overlapping_cds] below does not depend on this
    definition: it takes the routine as a parameter. *)
Fixpoint absorb {A : Type} (inters : A -> A -> bool) (x : A) (comps : list (list A))
    : list (list A) :=
  match comps with
  | [] => [[x]]
  | c :: r =>
      if existsb (inters x) c
      then (c ++ concat (filter (fun c' => existsb (inters x) c' = true) r) ++ [x])
             :: filter (fun c' => existsb (inters x) c' = false) r
      else c :: absorb inters x r
  end.

Definition connected_components (A : Type) (inters : A -> A -> bool) (l : list A)
    : list (list A) :=
  foldl (fun comps x => absorb inters x comps) [] l.

(** [find_overlapping_cds]: the communities of the ORF graph. *)
Section orf_graph.

(** [abstractlocus.find_communities(objects, inters=...)]. *)
Variable find_communities : forall A : Type, (A -> A -> bool) -> list A -> list (list A).

Definition find_overlapping_cds (candidates : list orf) : list (list orf) :=
  find_communities orf is_overlapping_cds candidates.

End orf_graph.

(** *** [load_orfs] *)

(** What the database holds for the transcript: whether a [Query] row carries
    its id, and the [orf] rows attached to that row. *)
Record session : Type := mk_session {
  query_known : bool;
  orf_rows : list orf
}.

(** [load_orfs].  The name [orf] is the target of the [for] loops at lines 541
    and 548 of the method, so it is a local variable of [load_orfs] from its
    first line to its last, and the class [orf] imported by the module cannot
    be reached from inside it.  Line 519, [self.session.query(orf)], reads
    that local before anything is assigned to it: whenever a [Query] row
    exists for the transcript the method raises [UnboundLocalError] there.
    By then only [finalize] has touched the object; the [orf] rows are never
    read and no line after 519 is ever executed. *)
Definition load_orfs (db : session) (t : transcript) : outcome :=
  and_then (finalize t)
    (fun t =>
       match json_dict t with
       | None => Raised AttributeError t
       | Some _ =>
           if negb (query_known db) then Returned t
           else Raised UnboundLocalError t
       end).

(** *** [split_by_cds] *)

(** What the generator yields: the object it was called on, or a transcript
    it has built. *)
Inductive yielded : Type :=
  | Self
  | Fresh (t : transcript).

Section chimera_split.

(** The branch for two or more internal ORFs (the BLAST check and the
    construction of one transcript per ORF) is kept abstract: it returns
    [new_transcripts] or raises.  Nothing proved below constrains it. *)
Variable split_orfs : json_conf -> transcript -> exn + list transcript.

(** The whole iteration of the generator: the state of the object afterwards,
    and either the exception that ended it or the sequence yielded. *)
Definition split_by_cds (t : transcript) : transcript * (exn + list yielded) :=
  match finalize t with
  | Raised e t => (t, inl e)
  | Returned t =>
      match json_dict t with
      | None => (t, inl AttributeError)
      | Some conf =>
          let new_transcripts :=
            if decide (number_internal_orfs t < 2)%nat then inr [Self]
            else
              match split_orfs conf t with
              | inl e => inl e
              | inr l => inr (map Fresh l)
              end in
          match new_transcripts with
          | inl e => (t, inl e)
          | inr [] => (t, inl AssertionError)
          | inr l => (t, inr l)
          end
      end
  end.

End chimera_split.

(** *** Distance metrics *)

Inductive result (A : Type) : Type :=
  | Ok (a : A)
  | Err (e : exn).
Arguments Ok {A} a.
Arguments Err {A} e.

Definition combined_cds_start (t : transcript) : Z :=
  match combined_cds t with
  | [] => if decide (strand t = Some Plus) then start t else end_ t
  | c :: r => if decide (strand t = Some Plus) then c.1 else (default c (last r)).2
  end.

Definition combined_cds_end (t : transcript) : Z :=
  match combined_cds t with
  | [] => if decide (strand t = Some Plus) then end_ t else start t
  | c :: r => if decide (strand t = Some Minus) then c.1 else (default c (last r)).2
  end.

(** [self.cds_end]: the class defines [combined_cds_end] and
    [selected_cds_end], but no attribute of this name. *)
Definition cds_end (t : transcript) : result Z := Err AttributeError.

(** [start_distance_from_tss], the sibling metric. *)
Fixpoint tss_forward (t : transcript) (exs : list segment) (distance : Z) : Z :=
  match exs with
  | [] => distance
  | ex :: rest =>
      let distance := distance + (Z.min ex.2 (combined_cds_start t) - ex.1 + 1) in
      if decide (combined_cds_start t <= ex.2) then distance
      else tss_forward t rest distance
  end.

Fixpoint tss_backward (t : transcript) (exs : list segment) (distance : Z) : Z :=
  match exs with
  | [] => distance
  | ex :: rest =>
      let distance := distance + (ex.2 + 1 - Z.max (combined_cds_start t) ex.1) in
      if decide (combined_cds_start t >= ex.1) then distance
      else tss_backward t rest distance
  end.

Definition start_distance_from_tss (t : transcript) : Z :=
  if decide (length (combined_cds t) = 0%nat) then 0
  else if decide (strand t = Some Plus) then tss_forward t (exons t) 0
  else if decide (strand t = Some Minus) then tss_backward t (reverse (exons t)) 0
  else 0.

(** [end_distance_from_tes]: both branches test [self.strand=="-"], and both
    loops read [self.cds_end]. *)
Fixpoint tes_forward (t : transcript) (exs : list segment) (distance : Z) : result Z :=
  match exs with
  | [] => Ok distance
  | ex :: rest =>
      let distance := distance + (Z.min ex.2 (combined_cds_end t) - ex.1 + 1) in
      match cds_end t with
      | Err e => Err e
      | Ok ce => if decide (ce <= ex.2) then Ok distance else tes_forward t rest distance
      end
  end.

Fixpoint tes_backward (t : transcript) (exs : list segment) (distance : Z) : result Z :=
  match exs with
  | [] => Ok distance
  | ex :: rest =>
      let distance := distance + (ex.2 + 1 - Z.max (combined_cds_end t) ex.1) in
      match cds_end t with
      | Err e => Err e
      | Ok ce => if decide (ce >= ex.1) then Ok distance else tes_backward t rest distance
      end
  end.

Definition end_distance_from_tes (t : transcript) : result Z :=
  if decide (length (combined_cds t) = 0%nat) then Ok 0
  else if decide (strand t = Some Minus) then tes_forward t (exons t) 0
  else if decide (strand t = Some Minus) then tes_backward t (reverse (exons t)) 0
  else Ok 0.

(** The metric as the specification words it: on ["+"] the exon length
    accumulated from the transcript end until the end of the combined CDS is
    crossed, on ["-"] the same accumulation from the transcript start. *)
Fixpoint from_end_until (cds_e : Z) (exs : list segment) (distance : Z) : Z :=
  match exs with
  | [] => distance
  | ex :: rest =>
      let distance := distance + (ex.2 + 1 - Z.max cds_e ex.1) in
      if decide (cds_e >= ex.1) then distance else from_end_until cds_e rest distance
  end.

Fixpoint from_start_until (cds_e : Z) (exs : list segment) (distance : Z) : Z :=
  match exs with
  | [] => distance
  | ex :: rest =>
      let distance := distance + (Z.min ex.2 cds_e - ex.1 + 1) in
      if decide (cds_e <= ex.2) then distance else from_start_until cds_e rest distance
  end.

Definition end_distance_from_tes_spec (t : transcript) : Z :=
  match strand t with
  | Some Plus => from_end_until (combined_cds_end t) (reverse (exons t)) 0
  | Some Minus => from_start_until (combined_cds_end t) (exons t) 0
  | None => 0
  end.

(** ** [superlocus.py] *)

Module Superlocus.

(** Modelled from the spec: the class [Transcript] of
    [Mikado.loci_objects.transcript] is not among the sources.  This record
    is the state of a finalized transcript as far as the methods below read
    it; on such a transcript [finalize] returns at once (it is idempotent). *)
Record Transcript : Type := mk_Transcript {
  id : string;
  start : Z;
  end_ : Z;
  monoexonic : bool;
  introns : gset segment;
  combined_cds_introns : gset segment;
  score : Q
}.

(** Modelled from the spec: [Abstractlocus.overlap] (the module
    [abstractlocus] is not among the sources) is the overlap primitive,
    [overlap((a,b),(c,d)) = min(b,d) - max(a,c)]. *)
Definition overlap (first second : segment) : Z :=
  Z.min first.2 second.2 - Z.max first.1 second.1.

(** [Superlocus.is_intersecting] *)
Definition is_intersecting (transcript other : Transcript) (cds_only : bool) : bool :=
  if decide (id transcript = id other) then false
  else if negb (monoexonic transcript) && negb (monoexonic other) then
    let intersection :=
      if negb cds_only then introns transcript ∩ introns other
      else combined_cds_introns transcript ∩ combined_cds_introns other in
    if decide (0 < size intersection)%nat then true else false
  else if monoexonic transcript && monoexonic other then
    if decide (start transcript = start other \/ end_ transcript = end_ other) then true
    else
      let test_result := overlap (start transcript, end_ transcript) (start other, end_ other) in
      bool_decide (test_result > 0)
  else false.

(** The introns that the predicate compares for the given [cds_only]. *)
Definition shared_introns (cds_only : bool) (t : Transcript) : gset segment :=
  if cds_only then combined_cds_introns t else introns t.

(** *** [define_alternative_splicing]

    [loci] maps a locus id to the id of its primary transcript, as
    [self.loci] stands once [define_loci] has returned ([define_loci] stores
    every locus under its own id); [transcripts] is [self.transcripts], and
    [cliques] is the first component of what [find_communities] returns for
    the transcript graph.  [loci_defined] is the flag [self.loci_defined] at
    the moment the method is entered, and [report] is
    [json_conf["alternative_splicing"]["report"]]. *)
Section alternative_splicing.

Variable loci_defined : bool.
Variable report : bool.
Variable loci : gmap string string.
Variable transcripts : gmap string Transcript.
Variable cliques : list (gset string).

Definition primary_transcripts : gset string :=
  list_to_set (map snd (map_to_list loci)).

(** The set accumulated in [loci_cliques[lid]] for a locus with this primary. *)
Definition clique_mates (primary : string) : gset string :=
  foldl (fun acc clique =>
           if decide (primary ∈ clique) then acc ∪ (clique ∖ {[primary]}) else acc)
        ∅ cliques.

Definition loci_cliques : gmap string (gset string) := clique_mates <$> loci.

Definition loci_in (tid : string) : list string :=
  map fst (filter (fun lc : string * gset string => tid ∈ lc.2) (map_to_list loci_cliques)).

(** [candidates], a [defaultdict(set)]. *)
Definition add_candidate (candidates : gmap string (gset string)) (tid : string)
    : gmap string (gset string) :=
  if decide (tid ∈ primary_transcripts) then candidates
  else
    match loci_in tid with
    | [lid] => <[lid := default ∅ (candidates !! lid) ∪ {[tid]}]> candidates
    | _ => candidates
    end.

Definition candidates : gmap string (gset string) :=
  foldl add_candidate ∅ (map fst (map_to_list transcripts)).

Definition score_of (tid : string) : Q :=
  match transcripts !! tid with
  | Some t => score t
  | None => 0%Q
  end.

(** Lines 718-749, the body that follows [self.define_loci()]: the calls
    [self.loci[lid].add_transcript_to_locus(self.transcripts[tid])] in the
    order in which they are made, as pairs [(lid, tid)]. *)
Definition submit_candidates : list (string * string) :=
  flat_map
    (fun lc : string * gset string =>
       map (fun tid => (lc.1, tid))
           (sorted_by (fun a b => Qle_bool (score_of b) (score_of a)) (elements lc.2)))
    (map_to_list candidates).

(** [define_alternative_splicing]: every call of [add_transcript_to_locus]
    that one call of the method causes, in order.  The method opens with
    [self.define_loci()] (line 716).  With the loci defined that call returns
    at once and lines 718-749 run once.  With the loci undefined
    [define_loci] builds them, sets the flag and, when [report] is on, calls
    [define_alternative_splicing] itself (line 700); in that inner call
    [define_loci] returns at once and lines 718-749 run; after the return they
    run a second time in the outer call.  [define_loci] changes neither the
    transcripts nor, once built, the primaries, so both runs make the same
    calls.  What the class [Locus] (not among the sources) does with a
    transcript handed to it is outside this model. *)
Definition define_alternative_splicing : list (string * string) :=
  if negb loci_defined && report then submit_candidates ++ submit_candidates
  else submit_candidates.

(** [tid] sits in some clique together with the primary of locus [lid]. *)
Definition shares_clique (lid tid : string) : Prop :=
  exists p c, loci !! lid = Some p /\ c ∈ cliques /\ p ∈ c /\ tid ∈ c /\ tid <> p.

(** The cliques that hold [tid] together with the primary of exactly one locus. *)
Definition cliques_with_one_primary (tid : string) : list (gset string) :=
  filter (fun c : gset string =>
            tid ∈ c /\ length (filter (fun lp : string * string => lp.2 ∈ c) (map_to_list loci)) = 1%nat)
         cliques.

End alternative_splicing.

End Superlocus.

(** ** Further properties and metrics of [transcript.py] *)

(** [sum(x[2]-x[1]+1 for x in filter(lambda x: x[0]==kind, segs))] *)
Definition typed_total (k : seg_kind) (segs : list typed_segment) : Z :=
  foldr (fun x acc => (ts_end x - ts_start x + 1) + acc) 0
        (filter (fun x => ts_kind x = k) segs).

(** [selected_cds_length]: 0 without CDS, otherwise the CDS length of
    [self.internal_orfs[self.selected_internal_orf_index]]. *)
Definition selected_cds_length (t : transcript) : result Z :=
  if decide (length (combined_cds t) = 0%nat) then Ok 0
  else
    match selected_internal_orf_index t with
    | None => Err TypeError
    | Some i =>
        match internal_orfs t !! i with
        | None => Err IndexError
        | Some o => Ok (typed_total CDS o)
        end
    end.

(** [cds_not_maximal] *)
Definition cds_not_maximal (t : transcript) : result Z :=
  if decide (length (internal_orfs t) < 2)%nat then Ok 0
  else
    match selected_cds_length t with
    | Ok n => Ok (combined_cds_length t - n)
    | Err e => Err e
    end.

(** ** Worked inputs *)

Definition conf0 : json_conf := mk_conf 100 false false 0%Q 0%Q.

(** A transcript on chr1+ with exons (100,200) and (301,500), CDS
    (150,200) and (301,400), and the flanking UTRs; not yet finalized. *)
Definition t_raw : transcript :=
  mk_transcript "t1" ["gene1"] "transcript" 100 500 (Some Plus)
    [(100, 200); (301, 500)] [(150, 200); (301, 400)] [(100, 149); (401, 500)]
    ∅ ∅ false None false false [] [] [] (Some conf0) default_relative.

(** The same transcript after [finalize]. *)
Definition t_final : transcript :=
  mk_transcript "t1" ["gene1"] "mRNA" 100 500 (Some Plus)
    [(100, 200); (301, 500)] [(150, 200); (301, 400)] [(100, 149); (401, 500)]
    (list_to_set [(201, 300)]) (list_to_set [201; 300]) true (Some 0%nat) true true
    [[(UTR, 100, 149); (exon, 100, 200); (CDS, 150, 200);
      (CDS, 301, 400); (exon, 301, 500); (UTR, 401, 500)]]
    [(UTR, 100, 149); (exon, 100, 200); (CDS, 150, 200);
     (CDS, 301, 400); (exon, 301, 500); (UTR, 401, 500)]
    [] (Some conf0) default_relative.

(** A fresh transcript without exons, as [__init__] leaves it. *)
Definition t_empty : transcript :=
  mk_transcript "t1" ["gene1"] "transcript" 100 500 (Some Plus)
    [] [] [] ∅ ∅ false None false false [] [] [] (Some conf0) default_relative.

Definition stop_codon_line : gffLine := mk_gff ["t1"] "stop_codon" 398 400.
Definition start_codon_line : gffLine := mk_gff ["t1"] "start_codon" 150 152.

(** Two ORFs on the same strand that meet in one position: the first ends
    where the second starts, so that their overlap is 0. *)
Definition orf_left : orf := mk_orf 1 1 100 (Some Plus) true true 100.
Definition orf_right : orf := mk_orf 2 100 220 (Some Plus) true true 121.

(** Two disjoint ORFs; the shorter one has exactly the minimal length of [conf0]. *)
Definition orf_long : orf := mk_orf 1 1 150 (Some Plus) true true 150.
Definition orf_short : orf := mk_orf 2 201 300 (Some Plus) true true 100.


(** The same two transcripts as the sublocus predicate sees them, and a
    second multi-exonic transcript sharing the intron (201,300). *)
Definition T1 : Superlocus.Transcript :=
  Superlocus.mk_Transcript "t1" 100 500 false
    (list_to_set [(201, 300)]) (list_to_set [(201, 300)]) 0%Q.
Definition T2 : Superlocus.Transcript :=
  Superlocus.mk_Transcript "t2" 150 450 false
    (list_to_set [(201, 300)]) (list_to_set [(201, 300)]) 0%Q.

(** One locus [L] with primary [p]; the transcript graph has the edges
    p-t, p-a, t-a, p-b, t-b, hence the two maximal cliques below. *)
Definition one_locus : gmap string string := {[ "L" := "p" ]}.

Definition plain (name : string) : Superlocus.Transcript :=
  Superlocus.mk_Transcript name 1 10 false ∅ ∅ 0%Q.

Definition four_transcripts : gmap string Superlocus.Transcript :=
  list_to_map [("p", plain "p"); ("t", plain "t"); ("a", plain "a"); ("b", plain "b")].

Definition two_cliques : list (gset string) :=
  [ {[ "p"; "t"; "a" ]}; {[ "p"; "t"; "b" ]} ].

(** ** Notions used to state the properties *)

(** A stored segment is well formed when its start does not exceed its end;
    [addExon] stores [sorted([start, end])], so every segment it appends is. *)
Definition wf_segment (s : segment) : Prop := s.1 <= s.2.

Definition wf_transcript (t : transcript) : Prop :=
  Forall wf_segment (exons t)
  /\ Forall wf_segment (combined_cds t)
  /\ Forall wf_segment (combined_utr t).

(** Two closed intervals overlap when they share a position. *)
Definition exons_overlap (a b : segment) : Prop := a.1 <= b.2 /\ b.1 <= a.2.

(** Some two entries of the list overlap. *)
Fixpoint some_pair_overlaps (l : list segment) : Prop :=
  match l with
  | [] => False
  | a :: r => Exists (exons_overlap a) r \/ some_pair_overlaps r
  end.

(** Each exon ends before the next one starts. *)
Fixpoint chain (l : list segment) : Prop :=
  match l with
  | a :: ((b :: _) as r) => a.2 < b.1 /\ chain r
  | _ => True
  end.

(** The introns and splice positions between consecutive exons. *)
Fixpoint gaps (l : list segment) : list segment :=
  match l with
  | a :: ((b :: _) as r) => (a.2 + 1, b.1 - 1) :: gaps r
  | _ => []
  end.

Fixpoint gap_ends (l : list segment) : list Z :=
  match l with
  | a :: ((b :: _) as r) => (a.2 + 1) :: (b.1 - 1) :: gap_ends r
  | _ => []
  end.

(** After sorting, the first exon's start or the last exon's end differs from
    the transcript's. *)
Definition extent_disagrees (t : transcript) : Prop :=
  match head (sorted_by key01_le (exons t)), last (sorted_by key01_le (exons t)) with
  | Some first_exon, Some last_exon => first_exon.1 <> start t \/ last_exon.2 <> end_ t
  | _, _ => False
  end.

(** The conditions under which [finalize] is said to fail. *)
Definition invalid (t : transcript) : Prop :=
  exons t = []
  \/ ((1 < length (exons t))%nat /\ strand t = None)
  \/ (combined_utr t <> [] /\ combined_cds t = [])
  \/ some_pair_overlaps (exons t)
  \/ extent_disagrees t
  \/ ((combined_cds t <> [] \/ combined_utr t <> [])
      /\ cdna_length t <> combined_cds_length t + combined_utr_length t).

(** The typed segments from which [finalize] builds the internal ORF. *)
Definition typed_lists (t : transcript) : list typed_segment :=
  map (fun e : segment => (exon, e.1, e.2)) (exons t)
  ++ map (fun c : segment => (CDS, c.1, c.2)) (combined_cds t)
  ++ map (fun u : segment => (UTR, u.1, u.2)) (combined_utr t).

(** [t_raw] with its exons, CDS and UTR stored in another order. *)
Definition t_shuffled : transcript :=
  with_lists [(301, 500); (100, 200)] [(301, 400); (150, 200)]
             [(401, 500); (100, 149)] t_raw.

Definition cds_line : gffLine := mk_gff ["t1"] "CDS" 200 150.

(** The scenario transcript on the reverse strand, finalized. *)
Definition t_minus : transcript :=
  mk_transcript "t1" ["gene1"] "mRNA" 100 500 (Some Minus)
    [(100, 200); (301, 500)] [(150, 200); (301, 400)] [(100, 149); (401, 500)]
    (list_to_set [(201, 300)]) (list_to_set [201; 300]) true (Some 0%nat) true true
    [[(UTR, 100, 149); (exon, 100, 200); (CDS, 150, 200);
      (CDS, 301, 400); (exon, 301, 500); (UTR, 401, 500)]]
    [(UTR, 100, 149); (exon, 100, 200); (CDS, 150, 200);
     (CDS, 301, 400); (exon, 301, 500); (UTR, 401, 500)]
    [] (Some conf0) default_relative.

(** The positions [start..end] of an interval. *)
Definition positions (s : segment) : gset Z := list_to_set (seqZ s.1 (s.2 - s.1 + 1)).


(** ** Properties *)

(** *** addExon *)

Lemma list_in_true x l : x ∈ l -> list_in x l = true.
Proof. intros H. unfold list_in. by apply bool_decide_eq_true. Qed.

(** The sibling path: a [start_codon] record sets the flag and returns,
    leaving the three lists as they were. *)
Lemma addExon_start_codon (t : transcript) (line : gffLine) :
  finalized t = false ->
  tid t ∈ g_parent line ->
  g_feature line = "start_codon" ->
  addExon t line = Returned (with_codons true (has_stop_codon t) t).
Proof.
  intros Hfin Hpar Hfeat. unfold addExon.
  rewrite Hfin, (list_in_true _ _ Hpar), Hfeat. reflexivity.
Qed.

(** C7. A [stop_codon] record whose parent names the transcript sets
    [has_stop_codon] on a non-finalized transcript and appends nothing, but
    the call does not return normally: the branch lacks the [return] that the
    [start_codon] branch has, and the method ends in [UnboundLocalError]. *)
Theorem addExon_stop_codon_raises (t : transcript) (line : gffLine) :
  finalized t = false ->
  tid t ∈ g_parent line ->
  g_feature line = "stop_codon" ->
  exists t',
    addExon t line = Raised UnboundLocalError t'
    /\ has_stop_codon t' = true
    /\ exons t' = exons t /\ combined_cds t' = combined_cds t
    /\ combined_utr t' = combined_utr t.
Proof.
  intros Hfin Hpar Hfeat.
  exists (with_codons (has_start_codon t) true t).
  unfold addExon. rewrite Hfin, (list_in_true _ _ Hpar), Hfeat.
  repeat split; reflexivity.
Qed.

Lemma addExon_stop_codon_raises_witness :
  exists t',
    addExon t_empty stop_codon_line = Raised UnboundLocalError t'
    /\ has_stop_codon t' = true
    /\ exons t' = exons t_empty /\ combined_cds t' = combined_cds t_empty
    /\ combined_utr t' = combined_utr t_empty.
Proof.
  apply (addExon_stop_codon_raises t_empty stop_codon_line).
  - reflexivity.
  - apply list_elem_of_singleton. reflexivity.
  - reflexivity.
Defined.

(** *** The ORF graph *)

(** C5 as stated fails: the two ORFs are distinct, on the same strand, their
    overlap is exactly 0, and yet an edge joins them. *)
Lemma zero_overlap_edge_counterexample :
  orf_left <> orf_right
  /\ orf_strand orf_left = orf_strand orf_right
  /\ Z.min (thickEnd orf_left) (thickEnd orf_right)
     - Z.max (thickStart orf_left) (thickStart orf_right) = 0
  /\ is_overlapping_cds orf_left orf_right = true.
Proof. repeat split; try reflexivity. discriminate. Qed.

(** With components as the specification describes them, the two ORFs above
    end up in one component. *)
Lemma zero_overlap_same_component :
  find_overlapping_cds connected_components [orf_right; orf_left]
  = [[orf_right; orf_left]].
Proof. vm_compute. reflexivity. Qed.

(** C5, amended. An edge joins two ORFs exactly when they are distinct, on the
    same strand, and [min] of the ends minus [max] of the starts is not
    negative; an overlap of 0 therefore connects them. *)
Theorem is_overlapping_cds_edge_iff (first second : orf) :
  is_overlapping_cds first second = true
  <-> (first <> second
       /\ orf_strand first = orf_strand second
       /\ Z.min (thickEnd first) (thickEnd second)
          - Z.max (thickStart first) (thickStart second) >= 0).
Proof.
  unfold is_overlapping_cds, overlap. simpl.
  destruct (decide _) as [H | H]; split.
  - discriminate.
  - intros (Hne & Hs & Ho). destruct H as [H | [H | H]]; [done | done | lia].
  - intros _. repeat split.
    + intros Heq. apply H. by left.
    + destruct (decide (orf_strand first = orf_strand second)) as [|Hn]; [done|].
      exfalso. apply H. right. by left.
    + apply Z.le_ge, Z.nlt_ge. intros Hlt. apply H. right. right. lia.
  - done.
Qed.

Lemma is_overlapping_cds_edge_iff_witness :
  is_overlapping_cds orf_left orf_right = true
  <-> (orf_left <> orf_right
       /\ orf_strand orf_left = orf_strand orf_right
       /\ Z.min (thickEnd orf_left) (thickEnd orf_right)
          - Z.max (thickStart orf_left) (thickStart orf_right) >= 0).
Proof. apply (is_overlapping_cds_edge_iff orf_left orf_right). Defined.

(** *** end_distance_from_tes *)

(** On strand ["-"] the first pass through the loop reads the missing
    attribute. *)
Lemma end_distance_from_tes_reverse_strand (t : transcript) :
  strand t = Some Minus ->
  combined_cds t <> [] ->
  exons t <> [] ->
  end_distance_from_tes t = Err AttributeError.
Proof.
  intros Hs Hc He. unfold end_distance_from_tes.
  rewrite decide_False by (destruct (combined_cds t); [done | simpl; lia]).
  rewrite decide_True by done.
  destruct (exons t) as [|ex rest]; [done | reflexivity].
Qed.

(** C8. On strand ["+"] neither branch of [end_distance_from_tes] is taken
    (both test for ["-"]), so the metric is 0 whatever the exons and the CDS
    are, and not the length accumulated from the transcript end. *)
Theorem end_distance_from_tes_forward_strand (t : transcript) :
  strand t = Some Plus ->
  end_distance_from_tes t = Ok 0.
Proof.
  intros Hs. unfold end_distance_from_tes.
  destruct (decide (length (combined_cds t) = 0%nat)); [done|].
  rewrite !decide_False by (rewrite Hs; discriminate). reflexivity.
Qed.

(** On the scenario transcript the accumulation from the end gives 101
    (positions 400 to 500), the metric gives 0; the sibling metric
    [start_distance_from_tss] does give the distance from the start, 51. *)
Lemma end_distance_from_tes_forward_strand_witness :
  end_distance_from_tes t_final = Ok 0
  /\ combined_cds t_final <> []
  /\ end_distance_from_tes_spec t_final = 101
  /\ start_distance_from_tss t_final = 51.
Proof.
  split; [apply (end_distance_from_tes_forward_strand t_final); reflexivity|].
  split; [discriminate|]. split; reflexivity.
Defined.

(** *** split_by_cds *)




(** *** The sublocus predicate *)

Module SuperlocusFacts.
Import Superlocus.

Lemma size_pos_inter (X Y : gset segment) :
  (0 < size (X ∩ Y))%nat <-> exists i, i ∈ X /\ i ∈ Y.
Proof.
  split.
  - intros H. apply size_pos_elem_of in H as [i Hi].
    exists i. by apply elem_of_intersection in Hi.
  - intros (i & HX & HY).
    assert (size (X ∩ Y) <> 0%nat); [|lia].
    apply size_non_empty_iff. intros He.
    assert (i ∈ X ∩ Y) as Hi by (by apply elem_of_intersection).
    rewrite He in Hi. by apply not_elem_of_empty in Hi.
Qed.

(** C2. For two transcripts with different ids the predicate holds exactly
    when both are multi-exonic and share an intron (a combined-CDS intron when
    [cds_only]), or both are monoexonic and share their start, or their end,
    or the overlap of their extents is positive; a monoexonic transcript and a
    multi-exonic one never intersect. *)
Theorem is_intersecting_sublocus (t1 t2 : Transcript) (cds_only : bool) :
  id t1 <> id t2 ->
  (is_intersecting t1 t2 cds_only = true
   <-> ((monoexonic t1 = false /\ monoexonic t2 = false
         /\ exists i, i ∈ shared_introns cds_only t1 /\ i ∈ shared_introns cds_only t2)
        \/ (monoexonic t1 = true /\ monoexonic t2 = true
            /\ (start t1 = start t2 \/ end_ t1 = end_ t2
                \/ Z.min (end_ t1) (end_ t2) - Z.max (start t1) (start t2) > 0))))
  /\ (monoexonic t1 <> monoexonic t2 -> is_intersecting t1 t2 cds_only = false).
Proof.
  intros Hid. unfold is_intersecting, shared_introns, overlap. simpl.
  rewrite decide_False by done.
  destruct (monoexonic t1), (monoexonic t2); simpl.
  - split; [|done]. destruct (decide _) as [H | H].
    + split; [intros _; right; tauto | done].
    + rewrite bool_decide_eq_true. split.
      * intros Ho. right. tauto.
      * intros [(? & _) | (_ & _ & [? | [? | ?]])]; [done | tauto | tauto | done].
  - split; [|done]. split; [done|]. intros [(? & _) | (_ & ? & _)]; done.
  - split; [|done]. split; [done|]. intros [(_ & ? & _) | (? & _)]; done.
  - split; [|done]. destruct cds_only; simpl.
    + destruct (decide _) as [H | H].
      * apply size_pos_inter in H. split; [intros _; left; tauto | done].
      * split; [done|]. intros [(_ & _ & Hex) | (? & _)]; [|done].
        exfalso. apply H. by apply size_pos_inter.
    + destruct (decide _) as [H | H].
      * apply size_pos_inter in H. split; [intros _; left; tauto | done].
      * split; [done|]. intros [(_ & _ & Hex) | (? & _)]; [|done].
        exfalso. apply H. by apply size_pos_inter.
Qed.

Lemma is_intersecting_sublocus_witness :
  (is_intersecting T1 T2 false = true
   <-> ((monoexonic T1 = false /\ monoexonic T2 = false
         /\ exists i, i ∈ shared_introns false T1 /\ i ∈ shared_introns false T2)
        \/ (monoexonic T1 = true /\ monoexonic T2 = true
            /\ (start T1 = start T2 \/ end_ T1 = end_ T2
                \/ Z.min (end_ T1) (end_ T2) - Z.max (start T1) (start T2) > 0))))
  /\ (monoexonic T1 <> monoexonic T2 -> is_intersecting T1 T2 false = false).
Proof. apply (is_intersecting_sublocus T1 T2 false). discriminate. Defined.

Example scenario1_share_an_intron : is_intersecting T1 T2 false = true.
Proof. vm_compute. reflexivity. Qed.

End SuperlocusFacts.

(** *** Sorting and sums *)

Section sorting.
Context {A : Type} (le : A -> A -> bool).

Lemma insert_by_perm (x : A) (l : list A) : insert_by le x l ≡ₚ x :: l.
Proof.
  induction l as [|y r IH]; simpl; [done|].
  destruct (le x y); [done|].
  rewrite IH. apply Permutation_swap.
Qed.

Lemma sorted_by_perm (l : list A) : sorted_by le l ≡ₚ l.
Proof.
  induction l as [|x r IH]; simpl; [done|].
  rewrite insert_by_perm. by constructor.
Qed.

Lemma sorted_by_nil_iff (l : list A) : sorted_by le l = [] <-> l = [].
Proof.
  split; [|by intros ->].
  intros H. apply Permutation_nil_r. rewrite <- H. symmetry. apply sorted_by_perm.
Qed.

Lemma sorted_by_length (l : list A) : length (sorted_by le l) = length l.
Proof. by rewrite sorted_by_perm. Qed.

Hypothesis le_total : forall a b, le a b = true \/ le b a = true.

Lemma insert_by_sorted (x : A) (l : list A) :
  Sorted (fun a b => le a b = true) l ->
  Sorted (fun a b => le a b = true) (insert_by le x l).
Proof.
  induction 1 as [|y r Hr IH Hhd]; simpl.
  - repeat constructor.
  - destruct (le x y) eqn:Hxy.
    + repeat constructor; done.
    + constructor; [done|].
      destruct (le_total x y) as [Hc | Hyx]; [congruence|].
      destruct Hhd as [|z r' Hyz]; simpl.
      * by constructor.
      * destruct (le x z); by constructor.
Qed.

Lemma sorted_by_sorted (l : list A) :
  Sorted (fun a b => le a b = true) (sorted_by le l).
Proof.
  induction l as [|x r IH]; simpl; [constructor|].
  by apply insert_by_sorted.
Qed.

Lemma sorted_by_id (l : list A) :
  Sorted (fun a b => le a b = true) l -> sorted_by le l = l.
Proof.
  induction 1 as [|a r Hr IH Hhd]; simpl; [done|].
  rewrite IH. destruct Hhd as [|b r' Hab]; simpl; [done|]. by rewrite Hab.
Qed.

End sorting.

Lemma key01_le_total (a b : segment) : key01_le a b = true \/ key01_le b a = true.
Proof.
  unfold key01_le.
  destruct (Z.ltb_spec a.1 b.1), (Z.ltb_spec b.1 a.1),
           (Z.eqb_spec a.1 b.1), (Z.eqb_spec b.1 a.1),
           (Z.leb_spec a.2 b.2), (Z.leb_spec b.2 a.2); simpl; auto; lia.
Qed.

Lemma key01_le_start (a b : segment) : key01_le a b = true -> a.1 <= b.1.
Proof.
  unfold key01_le.
  destruct (Z.ltb_spec a.1 b.1), (Z.eqb_spec a.1 b.1); simpl; intros; try lia; done.
Qed.

Lemma sum_perm {B : Type} (f : B -> Z) (l l' : list B) :
  l ≡ₚ l' ->
  foldr (fun x acc => f x + acc) 0 l = foldr (fun x acc => f x + acc) 0 l'.
Proof. induction 1; simpl; lia. Qed.

Lemma total_length_perm (l l' : list segment) :
  l ≡ₚ l' -> total_length l = total_length l'.
Proof. apply sum_perm. Qed.

Lemma total_length_sorted (l : list segment) :
  total_length (sorted_by key01_le l) = total_length l.
Proof. apply total_length_perm, sorted_by_perm. Qed.

Lemma total_length_wf_pos (l : list segment) :
  Forall wf_segment l -> l <> [] -> total_length l > 0.
Proof.
  induction 1 as [|s r Hs Hr IH]; [done|]. intros _. simpl.
  unfold wf_segment, seg_len in *.
  destruct r as [|s' r'].
  - simpl. lia.
  - assert (total_length (s' :: r') > 0) by (by apply IH). lia.
Qed.

Lemma total_length_wf_zero (l : list segment) :
  Forall wf_segment l -> total_length l = 0 -> l = [].
Proof.
  intros Hwf Hz. destruct l as [|s r]; [done|].
  assert (total_length (s :: r) > 0) by (by apply total_length_wf_pos). lia.
Qed.

(** *** Overlapping exons *)

Lemma exons_overlap_sym (a b : segment) : exons_overlap a b -> exons_overlap b a.
Proof. unfold exons_overlap. tauto. Qed.

Lemma some_pair_overlaps_perm (l l' : list segment) :
  l ≡ₚ l' -> some_pair_overlaps l -> some_pair_overlaps l'.
Proof.
  induction 1 as [|x l l' Hp IH|x y l|l l' l'' _ IH1 _ IH2]; simpl.
  - done.
  - intros [H | H]; [left; by rewrite <- Hp | right; auto].
  - rewrite !Exists_cons.
    intros [[H | H] | [H | H]]; auto using exons_overlap_sym.
  - auto.
Qed.

Lemma chain_after (a : segment) (r : list segment) :
  chain (a :: r) -> Forall wf_segment (a :: r) -> Forall (fun b => a.2 < b.1) r.
Proof.
  revert a. induction r as [|b r IH]; intros a Hc Hwf; [constructor|].
  destruct Hc as [Hab Hc].
  apply Forall_cons in Hwf as [Ha Hwf].
  pose proof (IH b Hc Hwf) as Hb.
  apply Forall_cons in Hwf as [Hbwf _]. unfold wf_segment in *.
  constructor; [done|].
  eapply Forall_impl; [exact Hb|]. simpl. intros c Hc'. lia.
Qed.

Lemma chain_tail (a : segment) (r : list segment) : chain (a :: r) -> chain r.
Proof. destruct r; simpl; tauto. Qed.

Lemma chain_no_overlap (l : list segment) :
  chain l -> Forall wf_segment l -> ~ some_pair_overlaps l.
Proof.
  induction l as [|a r IH]; intros Hc Hwf; simpl; [tauto|].
  intros [H | H].
  - pose proof (chain_after a r Hc Hwf) as Haft.
    apply Exists_exists in H as (b & Hb & Ho).
    rewrite Forall_forall in Haft. specialize (Haft b Hb).
    unfold exons_overlap in Ho. lia.
  - apply IH; [by eapply chain_tail | by eapply Forall_cons_1 | done].
Qed.

Lemma broken_chain_overlap (l : list segment) :
  Sorted (fun a b => key01_le a b = true) l ->
  Forall wf_segment l -> ~ chain l -> some_pair_overlaps l.
Proof.
  induction 1 as [|a r Hr IH Hhd]; intros Hwf Hn; [by destruct Hn|].
  apply Forall_cons in Hwf as [Ha Hwf].
  destruct Hhd as [|b r' Hab]; [by destruct Hn|].
  simpl in Hn. simpl.
  destruct (decide (a.2 < b.1)) as [Hlt | Hge].
  - right. apply IH; [done|]. intros Hc. apply Hn. done.
  - left. apply Exists_cons. left.
    apply key01_le_start in Hab.
    apply Forall_cons in Hwf as [Hb _].
    unfold exons_overlap, wf_segment in *. lia.
Qed.

(** *** The loop of [finalize] *)

Lemma scan_junctions_chain (ex : list segment) (ints : list segment) (spl : list Z) :
  chain ex -> scan_junctions ex ints spl = inr (ints ++ gaps ex, spl ++ gap_ends ex).
Proof.
  revert ints spl. induction ex as [|a r IH]; intros ints spl Hc.
  - simpl. by rewrite !app_nil_r.
  - destruct r as [|b r'].
    + simpl. by rewrite !app_nil_r.
    + destruct Hc as [Hab Hc].
      change (scan_junctions (a :: b :: r') ints spl)
        with (if decide (a.2 >= b.1) then inl (ints, spl)
              else scan_junctions (b :: r') (ints ++ [(a.2 + 1, b.1 - 1)])
                                  (spl ++ [a.2 + 1; b.1 - 1])).
      rewrite decide_False by lia. rewrite IH by done.
      change (gaps (a :: b :: r')) with ((a.2 + 1, b.1 - 1) :: gaps (b :: r')).
      change (gap_ends (a :: b :: r')) with ((a.2 + 1) :: (b.1 - 1) :: gap_ends (b :: r')).
      by rewrite <- !app_assoc.
Qed.

Lemma scan_junctions_broken (ex : list segment) (ints : list segment) (spl : list Z) :
  ~ chain ex -> exists p, scan_junctions ex ints spl = inl p.
Proof.
  revert ints spl. induction ex as [|a r IH]; intros ints spl Hn; [by destruct Hn|].
  destruct r as [|b r']; [by destruct Hn|].
  change (scan_junctions (a :: b :: r') ints spl)
    with (if decide (a.2 >= b.1) then inl (ints, spl)
          else scan_junctions (b :: r') (ints ++ [(a.2 + 1, b.1 - 1)])
                              (spl ++ [a.2 + 1; b.1 - 1])).
  destruct (decide (a.2 >= b.1)) as [Hge | Hlt]; [by eexists|].
  apply IH. intros Hc. apply Hn. split; [lia | done].
Qed.

Lemma chain_dec (l : list segment) : chain l \/ ~ chain l.
Proof.
  induction l as [|a r IH]; [by left|].
  destruct r as [|b r']; [by left|].
  destruct (decide (a.2 < b.1)) as [H | H].
  - destruct IH as [IH | IH]; [left; by split | right; intros [_ ?]; done].
  - right. intros [? _]. done.
Qed.

(** *** The tail of [finalize] *)

Lemma infer_codons_fields (t : transcript) :
  exons (infer_codons t) = exons t
  /\ combined_cds (infer_codons t) = combined_cds t
  /\ combined_utr (infer_codons t) = combined_utr t
  /\ start (infer_codons t) = start t
  /\ end_ (infer_codons t) = end_ t
  /\ strand (infer_codons t) = strand t
  /\ loaded_bed12 (infer_codons t) = loaded_bed12 t
  /\ json_dict (infer_codons t) = json_dict t
  /\ selected_internal_orf_index (infer_codons t) = selected_internal_orf_index t.
Proof.
  unfold infer_codons. repeat case_match; simpl in *; repeat split; congruence.
Qed.

Lemma complete_finalize_fields (ints : list segment) (spl : list Z) (t t' : transcript) :
  complete_finalize ints spl t = Returned t' ->
  exons t' = exons t
  /\ combined_cds t' = sorted_by key01_le (combined_cds t)
  /\ combined_utr t' = sorted_by key01_le (combined_utr t)
  /\ start t' = start t /\ end_ t' = end_ t /\ strand t' = strand t
  /\ introns t' = list_to_set ints
  /\ loaded_bed12 t' = loaded_bed12 t
  /\ json_dict t' = json_dict t
  /\ finalized t' = true
  /\ length (internal_orfs t') = 1%nat.
Proof.
  unfold complete_finalize.
  set (t1 := with_lists _ _ _ t).
  destruct (infer_codons_fields t1) as (He & Hc & Hu & Hs & Hd & Hst & Hb & Hj & Hi).
  unfold set_selected_internal_orf_index, read_selected_internal_orf,
    set_selected_internal_orf_index, and_then.
  intros H. simpl in H.
  repeat case_match; simplify_eq; simpl;
    rewrite ?He, ?Hc, ?Hu, ?Hs, ?Hd, ?Hst, ?Hb, ?Hj; done.
Qed.

Lemma complete_finalize_returns (ints : list segment) (spl : list Z) (t : transcript) :
  Forall wf_segment (combined_cds t) ->
  exists t', complete_finalize ints spl t = Returned t'.
Proof.
  intros Hwf. unfold complete_finalize.
  set (t1 := with_lists _ _ _ t).
  destruct (infer_codons_fields t1) as (He & Hc & Hu & Hs & Hd & Hst & Hb & Hj & Hi).
  unfold set_selected_internal_orf_index, read_selected_internal_orf,
    set_selected_internal_orf_index, and_then.
  simpl.
  destruct (decide (combined_cds_length _ > 0)) as [Hpos | Hnpos]; simpl.
  - destruct (decide (length _ = 0%nat)); simpl; eauto.
  - destruct (decide (length _ = 0%nat)) as [Hz | Hnz]; simpl; eauto.
    exfalso. apply Hnpos. unfold combined_cds_length. simpl. rewrite Hc. simpl.
    rewrite total_length_sorted. apply total_length_wf_pos; [done|].
    intros Hnil. apply Hnz. rewrite Hc. simpl. rewrite sorted_by_length, Hnil. done.
Qed.

(** *** What a successful [finalize] establishes *)

Lemma finalize_returned (t t' : transcript) :
  finalized t = false ->
  finalize t = Returned t' ->
  let ex := sorted_by key01_le (exons t) in
  chain ex
  /\ exons t' = ex
  /\ introns t' = list_to_set (gaps ex)
  /\ (exists f z, head ex = Some f /\ last ex = Some z /\ f.1 = start t /\ z.2 = end_ t)
  /\ start t' = start t /\ end_ t' = end_ t
  /\ combined_cds t' = sorted_by key01_le (combined_cds t)
  /\ combined_utr t' = sorted_by key01_le (combined_utr t)
  /\ ((combined_cds_length t = combined_utr_length t /\ combined_utr_length t = 0)
      \/ cdna_length t = combined_utr_length t + combined_cds_length t)
  /\ loaded_bed12 t' = loaded_bed12 t
  /\ finalized t' = true
  /\ strand t' = strand t
  /\ json_dict t' = json_dict t
  /\ ~ ((1 < length (exons t))%nat /\ strand t = None).
Proof.
  intros Hfin H ex. unfold finalize in H. rewrite Hfin in H. simpl in H.
  repeat case_decide; try discriminate.
  fold ex in H.
  destruct (head ex) as [f|] eqn:Hf; [|discriminate].
  destruct (last ex) as [z|] eqn:Hz; [|discriminate].
  case_decide; [discriminate|].
  destruct (chain_dec ex) as [Hc | Hc].
  - rewrite (scan_junctions_chain ex [] [] Hc) in H. simpl in H.
    apply complete_finalize_fields in H. simpl in H.
    destruct H as (He & Hcds & Hutr & Hs & Hd & Hst & Hi & Hb & Hj & Hfin' & _).
    repeat split; try done.
    exists f, z. repeat split; try done.
    + destruct (decide (f.1 = start t)); [done | tauto].
    + destruct (decide (z.2 = end_ t)); [done | tauto].
  - destruct (scan_junctions_broken ex [] [] Hc) as [[i s] Hp].
    rewrite Hp in H. discriminate.
Qed.

(** *** Exon and intron lengths *)

Lemma gaps_after (k : Z) (l : list segment) :
  Forall (fun c => k < c.2) l -> Forall (fun g => k + 1 < g.1) (gaps l).
Proof.
  induction l as [|a r IH]; intros H; [constructor|].
  destruct r as [|b r']; [constructor|].
  apply Forall_cons in H as [Ha Hr].
  change (gaps (a :: b :: r')) with ((a.2 + 1, b.1 - 1) :: gaps (b :: r')).
  constructor; [simpl; lia | by apply IH].
Qed.

Lemma gaps_NoDup (l : list segment) :
  chain l -> Forall wf_segment l -> NoDup (gaps l).
Proof.
  induction l as [|a r IH]; intros Hc Hwf; [constructor|].
  destruct r as [|b r']; [constructor|].
  change (gaps (a :: b :: r')) with ((a.2 + 1, b.1 - 1) :: gaps (b :: r')).
  pose proof (chain_after a (b :: r') Hc Hwf) as Haft.
  apply Forall_cons in Hwf as [Ha Hwf].
  constructor.
  - intros Hin.
    assert (Forall (fun g : segment => a.2 + 1 < g.1) (gaps (b :: r'))) as Hg.
    { apply gaps_after. rewrite Forall_forall in *. intros c Hcin.
      specialize (Haft c Hcin). specialize (Hwf c Hcin). unfold wf_segment in Hwf. lia. }
    rewrite Forall_forall in Hg. specialize (Hg _ Hin). simpl in Hg. lia.
  - apply IH; [by eapply chain_tail | done].
Qed.

Lemma chain_span (l : list segment) (f z : segment) :
  chain l -> head l = Some f -> last l = Some z ->
  total_length l + foldr (fun i acc => intron_len i + acc) 0 (gaps l) = z.2 - f.1 + 1.
Proof.
  revert f. induction l as [|a r IH]; intros f Hc Hf Hz; [done|].
  simpl in Hf. injection Hf as <-.
  destruct r as [|b r'].
  - simpl in Hz. injection Hz as <-. simpl. unfold seg_len. lia.
  - destruct Hc as [Hab Hc].
    change (last (a :: b :: r')) with (last (b :: r')) in Hz.
    specialize (IH b Hc eq_refl Hz).
    change (gaps (a :: b :: r')) with ((a.2 + 1, b.1 - 1) :: gaps (b :: r')).
    change (total_length (a :: b :: r')) with (seg_len a + total_length (b :: r')).
    change (foldr (fun i acc => intron_len i + acc) 0 ((a.2 + 1, b.1 - 1) :: gaps (b :: r')))
      with (intron_len (a.2 + 1, b.1 - 1)
            + foldr (fun i acc => intron_len i + acc) 0 (gaps (b :: r'))).
    set (G := foldr _ 0 (gaps (b :: r'))) in *.
    set (T := total_length (b :: r')) in *.
    unfold intron_len, seg_len. simpl. lia.
Qed.

Lemma finalize_t_raw : finalize t_raw = Returned t_final.
Proof. vm_compute. reflexivity. Qed.

(** C1 as stated fails: on the scenario transcript the exons sum to 301,
    while the span plus the intron is 401 + 100. *)
Lemma exon_intron_sum_counterexample :
  exists t',
    finalize t_raw = Returned t'
    /\ total_length (exons t') <> (end_ t' - start t' + 1) + introns_length t'.
Proof. exists t_final. split; [apply finalize_t_raw|]. vm_compute. discriminate. Qed.

(** C1, amended. After a successful [finalize] of a transcript whose exons
    are stored with start <= end, the exon lengths and the intron lengths add
    up to the span [end - start + 1]; and when the combined CDS length is
    positive, [cdna_length = combined_cds_length + combined_utr_length]. *)
Theorem finalize_length_accounting (t t' : transcript) :
  finalized t = false ->
  Forall wf_segment (exons t) ->
  finalize t = Returned t' ->
  total_length (exons t') + introns_length t' = end_ t' - start t' + 1
  /\ (combined_cds_length t' > 0 ->
      cdna_length t' = combined_cds_length t' + combined_utr_length t').
Proof.
  intros Hfin Hwf H.
  apply finalize_returned in H as
    (Hc & He & Hi & (f & z & Hf & Hz & Hfs & Hze) & Hs & Hd & Hcds & Hutr & Hacc & _);
    [|done].
  split.
  - unfold introns_length. rewrite He, Hi, Hs, Hd, <- Hfs, <- Hze.
    rewrite <- (chain_span _ f z Hc Hf Hz). f_equal.
    apply sum_perm, elements_list_to_set, gaps_NoDup; [done|].
    by rewrite sorted_by_perm.
  - unfold cdna_length, combined_cds_length, combined_utr_length in *.
    rewrite He, Hcds, Hutr, !total_length_sorted. lia.
Qed.

Lemma finalize_length_accounting_witness :
  total_length (exons t_final) + introns_length t_final = end_ t_final - start t_final + 1
  /\ (combined_cds_length t_final > 0 ->
      cdna_length t_final = combined_cds_length t_final + combined_utr_length t_final).
Proof.
  apply (finalize_length_accounting t_raw t_final).
  - reflexivity.
  - repeat constructor; unfold wf_segment; simpl; lia.
  - apply finalize_t_raw.
Defined.

(** *** When [finalize] fails *)

Lemma addExon_wf (t t' : transcript) (line : gffLine) :
  wf_transcript t -> addExon t line = Returned t' -> wf_transcript t'.
Proof.
  unfold addExon, wf_transcript. intros (He & Hc & Hu) H.
  assert (wf_segment (Z.min (g_start line) (g_end line),
                      Z.max (g_start line) (g_end line))) as Hseg
    by (unfold wf_segment; simpl; lia).
  repeat case_match; simplify_eq; simpl; repeat split;
    try done; apply Forall_app; split; try done; by constructor.
Qed.

Lemma finalize_cases (t : transcript) :
  finalized t = false ->
  wf_transcript t ->
  (invalid t /\ exists t', finalize t = Raised InvalidTranscript t')
  \/ (~ invalid t /\ exists t', finalize t = Returned t').
Proof.
  intros Hfin (Hwe & Hwc & Hwu). unfold finalize. rewrite Hfin. simpl.
  destruct (decide (length (exons t) = 0%nat)) as [H0 | H0].
  { left. split; [|eauto]. left. by destruct (exons t). }
  destruct (decide ((1 < length (exons t))%nat /\ strand t = None)) as [H1 | H1].
  { left. split; [|eauto]. right. by left. }
  destruct (decide (combined_utr t <> [] /\ combined_cds t = [])) as [H2 | H2].
  { left. split; [|eauto]. right. right. by left. }
  unfold combined_cds_length, combined_utr_length, cdna_length. simpl.
  destruct (decide _) as [H3 | H3].
  { left. split; [|eauto]. do 5 right. split.
    - destruct (combined_cds t), (combined_utr t); auto.
      exfalso. apply H3. left. done.
    - unfold combined_cds_length, combined_utr_length, cdna_length. lia. }
  apply dec_stable in H3.
  set (ex := sorted_by key01_le (exons t)).
  assert (ex <> []) as Hex.
  { unfold ex. rewrite sorted_by_nil_iff. intros Hn. by rewrite Hn in H0. }
  assert (Forall wf_segment ex) as Hwex by (unfold ex; by rewrite sorted_by_perm).
  destruct (head ex) as [f|] eqn:Hf; [|by destruct ex].
  destruct (last ex) as [z|] eqn:Hz; [|by apply last_None in Hz].
  destruct (decide (f.1 <> start t \/ z.2 <> end_ t)) as [H4 | H4].
  { left. split; [|eauto]. do 4 right. left.
    unfold extent_disagrees. fold ex. by rewrite Hf, Hz. }
  destruct (chain_dec ex) as [Hc | Hc].
  - right. rewrite (scan_junctions_chain ex [] [] Hc). simpl. split.
    + intros [Hi | [Hi | [Hi | [Hi | [Hi | Hi]]]]].
      * by rewrite Hi in H0.
      * done.
      * done.
      * apply (chain_no_overlap ex Hc Hwex).
        eapply some_pair_overlaps_perm; [|exact Hi].
        symmetry. apply sorted_by_perm.
      * unfold extent_disagrees in Hi. fold ex in Hi. by rewrite Hf, Hz in Hi.
      * destruct Hi as [Hne Hacc].
        unfold combined_cds_length, combined_utr_length, cdna_length in Hacc.
        destruct H3 as [[Hcu Hu0] | Hsum]; [|lia].
        rewrite Hu0 in Hcu.
        apply total_length_wf_zero in Hcu; [|done].
        apply total_length_wf_zero in Hu0; [|done].
        tauto.
    + by apply complete_finalize_returns.
  - left. destruct (scan_junctions_broken ex [] [] Hc) as [[i s] Hp].
    rewrite Hp. split; [|eauto]. do 3 right. left.
    eapply some_pair_overlaps_perm; [apply sorted_by_perm|].
    apply broken_chain_overlap; [|done|done].
    apply sorted_by_sorted, key01_le_total.
Qed.

(** C3. On a non-finalized transcript whose segments are stored with
    start <= end (as [addExon] stores them), [finalize] raises
    [InvalidTranscript] exactly when the transcript has no exons, or several
    exons and no strand, or UTR without CDS, or two overlapping exons, or a
    first/last exon (after sorting) that disagrees with its start/end, or a
    length accounting that fails while CDS or UTR is present; otherwise it
    returns. *)
Theorem finalize_raises_iff (t : transcript) :
  finalized t = false ->
  wf_transcript t ->
  ((exists t', finalize t = Raised InvalidTranscript t') <-> invalid t)
  /\ (~ invalid t -> exists t', finalize t = Returned t').
Proof.
  intros Hfin Hwf.
  destruct (finalize_cases t Hfin Hwf) as [[Hi [t' Hr]] | [Hn [t' Hr]]].
  - split; [split; eauto | done].
  - split; [|eauto]. split; [|done].
    intros [t'' Hr']. rewrite Hr in Hr'. discriminate.
Qed.

Lemma finalize_raises_iff_witness :
  ((exists t', finalize t_empty = Raised InvalidTranscript t') <-> invalid t_empty)
  /\ (~ invalid t_empty -> exists t', finalize t_empty = Returned t').
Proof.
  apply (finalize_raises_iff t_empty).
  - reflexivity.
  - repeat split; constructor.
Defined.

Example finalize_t_empty_raises :
  finalize t_empty = Raised InvalidTranscript (with_junctions ∅ ∅ t_empty).
Proof. vm_compute. reflexivity. Qed.

Example finalize_t_raw_valid : ~ invalid t_raw.
Proof.
  destruct (finalize_cases t_raw) as [[_ [t' Hr]] | [Hv _]].
  - reflexivity.
  - repeat split; repeat constructor; unfold wf_segment; simpl; lia.
  - rewrite finalize_t_raw in Hr. discriminate.
  - exact Hv.
Qed.

(** *** [load_orfs] when the database knows the transcript *)

Lemma finalize_any (t t1 : transcript) :
  finalize t = Returned t1 ->
  exons t1 ≡ₚ exons t /\ strand t1 = strand t /\ json_dict t1 = json_dict t
  /\ finalized t1 = true /\ loaded_bed12 t1 = loaded_bed12 t.
Proof.
  intros Hf. destruct (finalized t) eqn:Hfin.
  - unfold finalize in Hf. rewrite Hfin in Hf. by injection Hf as <-.
  - apply finalize_returned in Hf as
      (_ & He & _ & _ & _ & _ & _ & _ & _ & Hb & Hf' & Hst & Hj & _); [|done].
    rewrite He. repeat split; try done. apply sorted_by_perm.
Qed.



(** C6. When the database holds a [Query] row for a transcript that
    [finalize] accepts, [load_orfs] retains no ORF at all, whatever the
    [cds_len] of the rows and whatever the minimal length: it raises
    [UnboundLocalError] at line 519, before the candidates are read, and the
    list of loaded ORFs is what it was.  A secondary ORF whose [cds_len]
    equals [minimal_secondary_orf_length] is thus not retained, and neither
    is the primary one. *)
Theorem load_orfs_retains_no_orf (db : session) (t t1 : transcript) (conf : json_conf) :
  finalize t = Returned t1 ->
  json_dict t = Some conf ->
  query_known db = true ->
  load_orfs db t = Raised UnboundLocalError t1
  /\ loaded_bed12 t1 = loaded_bed12 t.
Proof.
  intros Hf Hconf Hq.
  destruct (finalize_any t t1 Hf) as (_ & _ & Hj & _ & Hb).
  split; [|exact Hb].
  unfold load_orfs. rewrite Hf. simpl. rewrite Hj, Hconf, Hq. done.
Qed.

Lemma load_orfs_retains_no_orf_witness :
  load_orfs (mk_session true [orf_long; orf_short]) t_raw = Raised UnboundLocalError t_final
  /\ loaded_bed12 t_final = loaded_bed12 t_raw.
Proof.
  apply (load_orfs_retains_no_orf (mk_session true [orf_long; orf_short])
           t_raw t_final conf0).
  - apply finalize_t_raw.
  - reflexivity.
  - reflexivity.
Defined.

(** *** Alternative splicing candidates *)

Module AlternativeSplicingFacts.
Import Superlocus.

Section facts.
Variable loci_defined : bool.
Variable report : bool.
Variable loci : gmap string string.
Variable transcripts : gmap string Transcript.
Variable cliques : list (gset string).

Lemma elem_of_clique_mates (primary tid : string) :
  tid ∈ clique_mates cliques primary
  <-> exists c, c ∈ cliques /\ primary ∈ c /\ tid ∈ c /\ tid <> primary.
Proof.
  unfold clique_mates.
  assert (forall acc : gset string,
            tid ∈ foldl (fun acc clique =>
                           if decide (primary ∈ clique)
                           then acc ∪ (clique ∖ {[primary]}) else acc) acc cliques
            <-> tid ∈ acc
                \/ exists c, c ∈ cliques /\ primary ∈ c /\ tid ∈ c /\ tid <> primary) as Hgen.
  { induction cliques as [|c r IH]; intros acc; simpl.
    - split; [by left|]. intros [? | (c & Hc & _)]; [done|]. by apply elem_of_nil in Hc.
    - rewrite IH. split.
      + intros [Hacc | (c' & Hc' & ?)].
        * destruct (decide (primary ∈ c)); [|by left].
          apply elem_of_union in Hacc as [? | Hd]; [by left|].
          apply elem_of_difference in Hd as [? Hn]. right. exists c.
          rewrite elem_of_singleton in Hn. repeat split; try done. by left.
        * right. exists c'. split; [by right | done].
      + intros [Hacc | (c' & Hc' & Hp & Ht & Hne)].
        * left. destruct (decide (primary ∈ c)); [|done]. apply elem_of_union. by left.
        * apply elem_of_cons in Hc' as [-> | Hc'].
          -- left. rewrite decide_True by done. apply elem_of_union. right.
             apply elem_of_difference. split; [done|]. by rewrite elem_of_singleton.
          -- right. exists c'. done. }
  rewrite Hgen. split; [|by right].
  intros [H | H]; [|done]. by apply not_elem_of_empty in H.
Qed.

Lemma elem_of_loci_in (lid tid : string) :
  lid ∈ loci_in loci cliques tid <-> shares_clique loci cliques lid tid.
Proof.
  unfold loci_in, loci_cliques, shares_clique. rewrite list_elem_of_fmap. split.
  - intros ([l s] & -> & Hin). apply list_elem_of_filter in Hin as [Ht Hin].
    apply elem_of_map_to_list in Hin. rewrite lookup_fmap in Hin.
    destruct (loci !! l) as [p|] eqn:Hp; simpl in Hin; [|discriminate].
    injection Hin as <-. simpl in Ht.
    apply elem_of_clique_mates in Ht as (c & ? & ? & ? & ?).
    exists p, c. done.
  - intros (p & c & Hp & ? & ? & ? & ?).
    exists (lid, clique_mates cliques p). split; [done|].
    apply list_elem_of_filter. split.
    + simpl. apply elem_of_clique_mates. by exists c.
    + apply elem_of_map_to_list. rewrite lookup_fmap, Hp. done.
Qed.

Lemma loci_in_NoDup (tid : string) : NoDup (loci_in loci cliques tid).
Proof.
  unfold loci_in.
  apply (sublist_NoDup _ (map fst (map_to_list (loci_cliques loci cliques)))).
  - apply (NoDup_fst_map_to_list (loci_cliques loci cliques)).
  - apply (fmap_sublist fst), sublist_filter.
Qed.

Lemma loci_in_single (lid tid : string) :
  loci_in loci cliques tid = [lid]
  <-> shares_clique loci cliques lid tid
      /\ forall l', shares_clique loci cliques l' tid -> l' = lid.
Proof.
  split.
  - intros Heq. split.
    + apply elem_of_loci_in. rewrite Heq. by left.
    + intros l' Hl'. apply elem_of_loci_in in Hl'. rewrite Heq in Hl'.
      by apply list_elem_of_singleton in Hl'.
  - intros [Hin Huniq].
    pose proof (loci_in_NoDup tid) as Hnd.
    assert (forall l', l' ∈ loci_in loci cliques tid -> l' = lid) as Hall
      by (intros l' Hl'; by apply Huniq, elem_of_loci_in).
    apply elem_of_loci_in in Hin.
    destruct (loci_in loci cliques tid) as [|x [|y r]].
    + by apply elem_of_nil in Hin.
    + f_equal. apply Hall. by left.
    + exfalso. apply NoDup_cons in Hnd as [Hx _]. apply Hx.
      rewrite (Hall x) by (by left). rewrite (Hall y) by (right; by left). by left.
Qed.

Lemma elem_of_candidates_fold (tids : list string) (acc : gmap string (gset string))
    (lid tid : string) :
  tid ∈ default ∅ (foldl (add_candidate loci cliques) acc tids !! lid)
  <-> tid ∈ default ∅ (acc !! lid)
      \/ (tid ∈ tids /\ (tid ∉ primary_transcripts loci)
          /\ loci_in loci cliques tid = [lid]).
Proof.
  revert acc. induction tids as [|x r IH]; intros acc; simpl.
  - split; [by left|]. intros [? | (H & _)]; [done|]. by apply elem_of_nil in H.
  - rewrite IH. unfold add_candidate. rewrite elem_of_cons. clear IH.
    destruct (decide (x ∈ primary_transcripts loci)) as [Hp | Hp].
    { intuition (subst; tauto). }
    destruct (loci_in loci cliques x) as [|l [|l2 ls]] eqn:Hx.
    + intuition (subst; congruence).
    + destruct (decide (l = lid)) as [-> | Hne].
      * rewrite lookup_insert_eq. simpl. rewrite elem_of_union, elem_of_singleton.
        intuition (subst; tauto).
      * rewrite lookup_insert_ne by done. intuition (subst; congruence).
    + intuition (subst; congruence).
Qed.

Lemma elem_of_candidates (lid tid : string) :
  tid ∈ default ∅ (candidates loci transcripts cliques !! lid)
  <-> is_Some (transcripts !! tid) /\ (tid ∉ primary_transcripts loci)
      /\ loci_in loci cliques tid = [lid].
Proof.
  unfold candidates. rewrite elem_of_candidates_fold, lookup_empty. simpl.
  assert (tid ∈ map fst (map_to_list transcripts) <-> is_Some (transcripts !! tid)) as ->.
  { rewrite list_elem_of_fmap. split.
    - intros ([k v] & -> & Hin). apply elem_of_map_to_list in Hin. by exists v.
    - intros [v Hv]. exists (tid, v). split; [done|]. by apply elem_of_map_to_list. }
  split; [|by right]. intros [H | H]; [|done]. by apply not_elem_of_empty in H.
Qed.

Lemma elem_of_submit_candidates (lid tid : string) :
  (lid, tid) ∈ submit_candidates loci transcripts cliques
  <-> tid ∈ default ∅ (candidates loci transcripts cliques !! lid).
Proof.
  unfold submit_candidates. rewrite list_elem_of_In, in_flat_map. split.
  - intros ([l s] & Hin & Hpair).
    apply list_elem_of_In, elem_of_map_to_list in Hin.
    apply list_elem_of_In, list_elem_of_fmap in Hpair as (x & Heq & Hx).
    simpl in Heq. injection Heq as -> ->.
    rewrite sorted_by_perm in Hx. apply elem_of_elements in Hx.
    rewrite Hin. done.
  - intros Hin.
    destruct (candidates loci transcripts cliques !! lid) as [s|] eqn:Hs; simpl in Hin;
      [|by apply not_elem_of_empty in Hin].
    exists (lid, s). split.
    + by apply list_elem_of_In, elem_of_map_to_list.
    + apply list_elem_of_In, list_elem_of_fmap. exists tid. split; [done|].
      rewrite sorted_by_perm. by apply elem_of_elements.
Qed.

Lemma elem_of_define_alternative_splicing (lid tid : string) :
  (lid, tid) ∈ define_alternative_splicing loci_defined report loci transcripts cliques
  <-> tid ∈ default ∅ (candidates loci transcripts cliques !! lid).
Proof.
  unfold define_alternative_splicing.
  destruct (negb loci_defined && report); [rewrite elem_of_app|];
    rewrite elem_of_submit_candidates; tauto.
Qed.

(** C9, amended. A transcript is submitted to a locus exactly when it is one
    of the superlocus's transcripts, is no locus's primary, shares a clique
    with the primary of that locus and with the primary of no other locus (it
    may share several cliques with that one primary); a transcript whose
    cliques link it to the primaries of two loci is submitted to none. *)
Theorem as_candidate_iff (lid tid : string) :
  ((lid, tid) ∈ define_alternative_splicing loci_defined report loci transcripts cliques
   <-> (is_Some (transcripts !! tid)
        /\ (tid ∉ primary_transcripts loci)
        /\ shares_clique loci cliques lid tid
        /\ forall l', shares_clique loci cliques l' tid -> l' = lid))
  /\ (forall l1 l2,
        l1 <> l2 ->
        shares_clique loci cliques l1 tid ->
        shares_clique loci cliques l2 tid ->
        (lid, tid) ∉ define_alternative_splicing loci_defined report loci transcripts cliques).
Proof.
  assert ((lid, tid) ∈ define_alternative_splicing loci_defined report loci transcripts cliques
          <-> (is_Some (transcripts !! tid)
               /\ (tid ∉ primary_transcripts loci)
               /\ shares_clique loci cliques lid tid
               /\ forall l', shares_clique loci cliques l' tid -> l' = lid)) as Hiff.
  { rewrite elem_of_define_alternative_splicing, elem_of_candidates, loci_in_single.
    tauto. }
  split; [exact Hiff|].
  intros l1 l2 Hne H1 H2 Hin. apply Hiff in Hin as (_ & _ & _ & Huniq).
  apply Hne. rewrite (Huniq l1 H1), (Huniq l2 H2). done.
Qed.

End facts.

Lemma two_cliques_submissions :
  define_alternative_splicing true true one_locus four_transcripts two_cliques
  = [("L", "a"); ("L", "b"); ("L", "t")].
Proof. vm_compute. reflexivity. Qed.

(** C9 as stated fails: [t] is no primary and is submitted to [L], although
    it sits in two cliques each holding exactly one locus's primary. *)
Lemma as_candidate_two_cliques_counterexample :
  ("L", "t") ∈ define_alternative_splicing true true one_locus four_transcripts two_cliques
  /\ ("t" ∉ primary_transcripts one_locus)
  /\ length (cliques_with_one_primary one_locus two_cliques "t") = 2%nat.
Proof.
  split; [|split].
  - rewrite two_cliques_submissions. apply list_elem_of_In. simpl. tauto.
  - apply (bool_decide_unpack _). vm_compute. exact I.
  - vm_compute. reflexivity.
Qed.

Lemma as_candidate_iff_witness :
  (("L", "t") ∈ define_alternative_splicing true true one_locus four_transcripts two_cliques
   <-> (is_Some (four_transcripts !! "t")
        /\ ("t" ∉ primary_transcripts one_locus)
        /\ shares_clique one_locus two_cliques "L" "t"
        /\ forall l', shares_clique one_locus two_cliques l' "t" -> l' = "L"))
  /\ (forall l1 l2,
        l1 <> l2 ->
        shares_clique one_locus two_cliques l1 "t" ->
        shares_clique one_locus two_cliques l2 "t" ->
        ("L", "t") ∉ define_alternative_splicing true true one_locus four_transcripts two_cliques).
Proof. apply (as_candidate_iff true true one_locus four_transcripts two_cliques "L" "t"). Defined.

End AlternativeSplicingFacts.

(** ** Further properties of [transcript.py] *)

(** *** addExon *)

(** X1. [addExon] returns normally exactly when the transcript is not
    finalized, the record's parent names it, and the feature is [CDS], or
    contains [combined_utr] or [UTR], or is [exon] or [start_codon]; every
    other call, a [stop_codon] record included, ends in an exception. *)
Theorem addExon_returns_iff (t : transcript) (line : gffLine) :
  (exists t', addExon t line = Returned t')
  <-> (finalized t = false
       /\ tid t ∈ g_parent line
       /\ (g_feature line = "CDS"
           \/ str_in "combined_utr" (g_feature line) = true
           \/ str_in "UTR" (g_feature line) = true
           \/ g_feature line = "exon"
           \/ g_feature line = "start_codon")).
Proof.
  unfold addExon, list_in.
  destruct (finalized t).
  { split; [intros [t' H]; discriminate | intros [H _]; discriminate]. }
  destruct (bool_decide_reflect (tid t ∈ g_parent line)) as [Hp | Hp]; simpl.
  2: { split; [intros [t' H]; discriminate | tauto]. }
  destruct (String.eqb_spec (g_feature line) "CDS") as [Hc | Hc].
  { split; [auto | eauto]. }
  destruct (str_in "combined_utr" (g_feature line)) eqn:Hu1; simpl.
  { split; [auto 6 | eauto]. }
  destruct (str_in "UTR" (g_feature line)) eqn:Hu2; simpl.
  { split; [auto 6 | eauto]. }
  destruct (String.eqb_spec (g_feature line) "exon") as [He | He].
  { split; [auto 7 | eauto]. }
  destruct (String.eqb_spec (g_feature line) "start_codon") as [Hs | Hs].
  { split; [auto 8 | eauto]. }
  split.
  - intros [t' H]. destruct (String.eqb _ "stop_codon"); discriminate.
  - intros (_ & _ & [? | [? | [? | [? | ?]]]]); congruence.
Qed.

Lemma addExon_returns_iff_witness :
  (exists t', addExon t_empty cds_line = Returned t')
  <-> (finalized t_empty = false
       /\ tid t_empty ∈ g_parent cds_line
       /\ (g_feature cds_line = "CDS"
           \/ str_in "combined_utr" (g_feature cds_line) = true
           \/ str_in "UTR" (g_feature cds_line) = true
           \/ g_feature cds_line = "exon"
           \/ g_feature cds_line = "start_codon")).
Proof. apply (addExon_returns_iff t_empty cds_line). Defined.

(** X2. Whatever the order of the two coordinates in the record, [addExon]
    keeps every stored exon, CDS and UTR segment with start <= end. *)
Theorem addExon_keeps_segments_ordered (t t' : transcript) (line : gffLine) :
  wf_transcript t -> addExon t line = Returned t' -> wf_transcript t'.
Proof.
  unfold addExon, wf_transcript. intros (He & Hc & Hu) H.
  assert (wf_segment (Z.min (g_start line) (g_end line),
                      Z.max (g_start line) (g_end line))) as Hseg
    by (unfold wf_segment; simpl; lia).
  repeat case_match; simplify_eq; simpl; repeat split;
    try done; apply Forall_app; split; try done; by constructor.
Qed.

Lemma addExon_keeps_segments_ordered_witness :
  wf_transcript (with_lists [] [(150, 200)] [] t_empty).
Proof.
  apply (addExon_keeps_segments_ordered t_empty _ cds_line).
  - repeat split; constructor.
  - reflexivity.
Defined.

(** *** finalize: the order of the input and repeated calls *)

Lemma key01_le_trans (a b c : segment) :
  key01_le a b = true -> key01_le b c = true -> key01_le a c = true.
Proof.
  unfold key01_le.
  rewrite !orb_true_iff, !andb_true_iff, !Z.ltb_lt, !Z.eqb_eq, !Z.leb_le. lia.
Qed.

Lemma key01_le_antisym (a b : segment) :
  key01_le a b = true -> key01_le b a = true -> a = b.
Proof.
  unfold key01_le.
  rewrite !orb_true_iff, !andb_true_iff, !Z.ltb_lt, !Z.eqb_eq, !Z.leb_le.
  destruct a as [a1 a2], b as [b1 b2]. simpl. intros H1 H2. f_equal; lia.
Qed.

(** Sorting by [(start, end)] forgets the order in which the segments came. *)
Lemma sorted_by_key01_perm (l l' : list segment) :
  l ≡ₚ l' -> sorted_by key01_le l = sorted_by key01_le l'.
Proof.
  intros Hp.
  assert (Transitive (fun a b : segment => key01_le a b = true)) as Htr
    by (intros a b c; apply key01_le_trans).
  apply (Sorted_unique_strong (fun a b => key01_le a b = true)).
  - intros a b _ _. apply key01_le_antisym.
  - apply sorted_by_sorted, key01_le_total.
  - apply sorted_by_sorted, key01_le_total.
  - by rewrite !sorted_by_perm.
Qed.

Lemma sorted_by_key01_twice (l : list segment) :
  sorted_by key01_le (sorted_by key01_le l) = sorted_by key01_le l.
Proof. apply sorted_by_key01_perm, sorted_by_perm. Qed.

(** X3. Once [finalize] has succeeded, calling it again returns at once and
    leaves the transcript as it is. *)
Theorem finalize_idempotent (t t' : transcript) :
  finalize t = Returned t' -> finalize t' = Returned t'.
Proof.
  intros H. destruct (finalized t) eqn:Hfin.
  - unfold finalize in H. rewrite Hfin in H. injection H as <-.
    unfold finalize. by rewrite Hfin.
  - apply finalize_returned in H as (_ & _ & _ & _ & _ & _ & _ & _ & _ & _ & Hf & _); [|done].
    unfold finalize. by rewrite Hf.
Qed.

Lemma finalize_idempotent_witness : finalize t_final = Returned t_final.
Proof. apply (finalize_idempotent t_raw t_final). apply finalize_t_raw. Defined.

(** X4. [finalize] does not depend on the order in which exons, CDS and UTR
    segments were added: on a transcript holding the same segments in another
    order it returns the very same finalized transcript. *)
Theorem finalize_order_insensitive (t t' : transcript) (ex cds utr : list segment) :
  finalized t = false ->
  ex ≡ₚ exons t -> cds ≡ₚ combined_cds t -> utr ≡ₚ combined_utr t ->
  finalize t = Returned t' ->
  finalize (with_lists ex cds utr t) = Returned t'.
Proof.
  intros Hfin Hex Hcds Hutr H.
  unfold finalize in *. rewrite Hfin in H. simpl in *. rewrite Hfin.
  unfold combined_cds_length, combined_utr_length, cdna_length in *. simpl in *.
  rewrite (total_length_perm _ _ Hex), (total_length_perm _ _ Hcds),
    (total_length_perm _ _ Hutr), (sorted_by_key01_perm _ _ Hex).
  assert (length ex = length (exons t)) as -> by (by rewrite Hex).
  assert (cds = [] <-> combined_cds t = []) as Hcn.
  { split; intros Hn; [rewrite Hn in Hcds; by apply Permutation_nil
                      | rewrite Hn in Hcds; by apply Permutation_nil_r]. }
  assert (utr = [] <-> combined_utr t = []) as Hun.
  { split; intros Hn; [rewrite Hn in Hutr; by apply Permutation_nil
                      | rewrite Hn in Hutr; by apply Permutation_nil_r]. }
  destruct (decide (length (exons t) = 0%nat)); [discriminate|].
  destruct (decide ((1 < length (exons t))%nat /\ strand t = None)); [discriminate|].
  destruct (decide (combined_utr t <> [] /\ combined_cds t = [])) as [|Hn3]; [discriminate|].
  rewrite (decide_False (P := utr <> [] /\ cds = [])) by tauto.
  destruct (decide _); [discriminate|].
  destruct (head _) as [f|]; [|discriminate].
  destruct (last _) as [z|]; [|discriminate].
  destruct (decide _); [discriminate|].
  destruct (scan_junctions _ [] []) as [[i s] | [i s]]; [discriminate|].
  rewrite <- H. unfold complete_finalize. simpl.
  rewrite (sorted_by_key01_perm _ _ Hcds), (sorted_by_key01_perm _ _ Hutr).
  reflexivity.
Qed.

Lemma finalize_order_insensitive_witness : finalize t_shuffled = Returned t_final.
Proof.
  apply (finalize_order_insensitive t_raw t_final).
  - reflexivity.
  - apply Permutation_swap.
  - apply Permutation_swap.
  - apply Permutation_swap.
  - apply finalize_t_raw.
Defined.

(** *** finalize: what the finalized transcript looks like *)

Lemma key120_le_total (a b : typed_segment) :
  key120_le a b = true \/ key120_le b a = true.
Proof.
  unfold key120_le.
  rewrite !orb_true_iff, !andb_true_iff, !orb_true_iff, !andb_true_iff,
    !Z.ltb_lt, !Z.eqb_eq, !Z.leb_le. lia.
Qed.

Lemma complete_finalize_shape (ints : list segment) (spl : list Z) (t t' : transcript) :
  complete_finalize ints spl t = Returned t' ->
  let t2 := infer_codons (with_lists (exons t) (sorted_by key01_le (combined_cds t))
                                     (sorted_by key01_le (combined_utr t)) t) in
  let segs := build_segments t2 in
  t' = with_state (if decide (0 < length (combined_cds t2))%nat then "mRNA" else feature t2)
         true default_relative
         (with_junctions (list_to_set ints) (list_to_set spl)
            (with_orfs segs [segs] (Some 0%nat) t2)).
Proof.
  intros H. unfold complete_finalize in H. cbv zeta in H. cbv zeta.
  set (t2 := infer_codons _) in *.
  set (segs := build_segments t2) in *.
  unfold and_then, read_selected_internal_orf, set_selected_internal_orf_index in H.
  simpl in H.
  destruct (decide (combined_cds_length _ > 0)) as [Hpos | Hnpos]; simpl in H.
  - destruct (decide (length (combined_cds t2) = 0%nat)) as [Hz | Hnz]; simpl in H.
    + injection H as <-. rewrite decide_False by lia. reflexivity.
    + injection H as <-. reflexivity.
  - destruct (decide (length (combined_cds t2) = 0%nat)) as [Hz | Hnz]; simpl in H.
    + injection H as <-. rewrite decide_False by lia. reflexivity.
    + destruct (selected_internal_orf_index t2) as [i|]; [|discriminate].
      destruct (decide (i < 1)%nat) as [Hi | Hi]; [|discriminate].
      injection H as <-. assert (i = 0%nat) as -> by lia. reflexivity.
Qed.

Lemma finalize_shape (t t' : transcript) :
  finalized t = false ->
  finalize t = Returned t' ->
  let ex := sorted_by key01_le (exons t) in
  let t2 := infer_codons (with_lists ex (sorted_by key01_le (combined_cds t))
                                     (sorted_by key01_le (combined_utr t))
                                     (with_junctions ∅ ∅ t)) in
  let segs := build_segments t2 in
  chain ex
  /\ t' = with_state (if decide (0 < length (combined_cds t2))%nat then "mRNA" else feature t2)
            true default_relative
            (with_junctions (list_to_set (gaps ex)) (list_to_set (gap_ends ex))
               (with_orfs segs [segs] (Some 0%nat) t2)).
Proof.
  intros Hfin H ex. unfold finalize in H. rewrite Hfin in H. simpl in H.
  repeat case_decide; try discriminate.
  fold ex in H.
  destruct (head ex) as [f|] eqn:Hf; [|discriminate].
  destruct (last ex) as [z|] eqn:Hz; [|discriminate].
  case_decide; [discriminate|].
  destruct (chain_dec ex) as [Hc | Hc].
  - rewrite (scan_junctions_chain ex [] [] Hc) in H. simpl in H.
    apply complete_finalize_shape in H. simpl in H. split; [done|]. exact H.
  - destruct (scan_junctions_broken ex [] [] Hc) as [[i s] Hp].
    rewrite Hp in H. discriminate.
Qed.

Lemma gaps_length (l : list segment) : length (gaps l) = (length l - 1)%nat.
Proof.
  induction l as [|a r IH]; [done|].
  destruct r as [|b r']; [done|].
  change (gaps (a :: b :: r')) with ((a.2 + 1, b.1 - 1) :: gaps (b :: r')).
  simpl length in *. lia.
Qed.

Lemma Sorted_weaken {A : Type} (R R' : A -> A -> Prop) (l : list A) :
  (forall a b, R a b -> R' a b) -> Sorted R l -> Sorted R' l.
Proof.
  intros Himp. induction 1 as [|a r Hr IH Hhd]; constructor; [done|].
  destruct Hhd; constructor. by apply Himp.
Qed.

(** X5. A successful [finalize] loses and invents no segment: the exons, the
    CDS and the UTR of the result are permutations of those it was given; the
    exons come out in genomic order, each ending before the next one starts,
    the first starting at the transcript's start and the last ending at its
    end. *)
Theorem finalize_exons_ordered (t t' : transcript) :
  finalized t = false ->
  finalize t = Returned t' ->
  exons t' ≡ₚ exons t
  /\ combined_cds t' ≡ₚ combined_cds t
  /\ combined_utr t' ≡ₚ combined_utr t
  /\ chain (exons t')
  /\ Sorted (fun a b : segment => a.1 <= b.1) (exons t')
  /\ exists first_exon last_exon,
       head (exons t') = Some first_exon /\ last (exons t') = Some last_exon
       /\ first_exon.1 = start t' /\ last_exon.2 = end_ t'.
Proof.
  intros Hfin H.
  apply finalize_returned in H as
    (Hc & He & _ & (f & z & Hf & Hz & Hfs & Hze) & Hs & Hd & Hcds & Hutr & _); [|done].
  rewrite He, Hcds, Hutr, Hs, Hd. repeat split.
  - apply sorted_by_perm.
  - apply sorted_by_perm.
  - apply sorted_by_perm.
  - done.
  - eapply Sorted_weaken; [|apply (sorted_by_sorted key01_le), key01_le_total].
    intros a b. apply key01_le_start.
  - by exists f, z.
Qed.

Lemma finalize_exons_ordered_witness :
  exons t_final ≡ₚ exons t_raw
  /\ combined_cds t_final ≡ₚ combined_cds t_raw
  /\ combined_utr t_final ≡ₚ combined_utr t_raw
  /\ chain (exons t_final)
  /\ Sorted (fun a b : segment => a.1 <= b.1) (exons t_final)
  /\ exists first_exon last_exon,
       head (exons t_final) = Some first_exon /\ last (exons t_final) = Some last_exon
       /\ first_exon.1 = start t_final /\ last_exon.2 = end_ t_final.
Proof.
  apply (finalize_exons_ordered t_raw t_final); [reflexivity | apply finalize_t_raw].
Defined.

(** X6. After a successful [finalize] of a transcript whose exons are stored
    with start <= end, the introns are exactly the gaps between consecutive
    exons, the splice sites are the two ends of each gap, there is one intron
    fewer than there are exons, and a monoexonic transcript has none. *)
Theorem finalize_introns (t t' : transcript) :
  finalized t = false ->
  Forall wf_segment (exons t) ->
  finalize t = Returned t' ->
  introns t' = list_to_set (gaps (exons t'))
  /\ splices t' = list_to_set (gap_ends (exons t'))
  /\ size (introns t') = (length (exons t') - 1)%nat
  /\ (monoexonic t' = true -> introns t' = ∅ /\ splices t' = ∅).
Proof.
  intros Hfin Hwf H.
  destruct (finalize_shape t t' Hfin H) as [Hc Ht'].
  set (ex := sorted_by key01_le (exons t)) in *.
  assert (exons t' = ex) as He.
  { rewrite Ht'. simpl.
    match goal with |- exons (infer_codons ?x) = _ =>
      destruct (infer_codons_fields x) as (-> & _) end. done. }
  assert (introns t' = list_to_set (gaps ex)) as Hi by (rewrite Ht'; done).
  assert (splices t' = list_to_set (gap_ends ex)) as Hs by (rewrite Ht'; done).
  rewrite He, Hi, Hs. split; [done|]. split; [done|]. split.
  - rewrite size_list_to_set, gaps_length; [done|].
    apply gaps_NoDup; [done|]. unfold ex. by rewrite sorted_by_perm.
  - intros Hm. unfold monoexonic in Hm. rewrite He in Hm. apply Nat.eqb_eq in Hm.
    destruct ex as [|a [|b r]]; done.
Qed.

Lemma finalize_introns_witness :
  introns t_final = list_to_set (gaps (exons t_final))
  /\ splices t_final = list_to_set (gap_ends (exons t_final))
  /\ size (introns t_final) = (length (exons t_final) - 1)%nat
  /\ (monoexonic t_final = true -> introns t_final = ∅ /\ splices t_final = ∅).
Proof.
  apply (finalize_introns t_raw t_final).
  - reflexivity.
  - repeat constructor; unfold wf_segment; simpl; lia.
  - apply finalize_t_raw.
Defined.

Lemma finalize_lists (t t' : transcript) :
  finalized t = false ->
  finalize t = Returned t' ->
  internal_orfs t' = [segments t']
  /\ segments t' = sorted_by key120_le (typed_lists t')
  /\ selected_internal_orf_index t' = Some 0%nat
  /\ combined_cds t' = sorted_by key01_le (combined_cds t)
  /\ json_dict t' = json_dict t
  /\ feature t' = (if decide (combined_cds t = []) then feature t else "mRNA").
Proof.
  intros Hfin H.
  destruct (finalize_shape t t' Hfin H) as [_ Ht'].
  match type of Ht' with context [infer_codons ?x] =>
    destruct (infer_codons_fields x) as (He & Hc & Hu & _ & _ & _ & _ & Hj & _);
    assert (feature (infer_codons x) = feature t) as Hfeat
      by (unfold infer_codons; repeat case_match; reflexivity)
  end.
  rewrite Ht'. unfold typed_lists, build_segments. simpl.
  rewrite ?He, ?Hc, ?Hu, ?Hj, ?Hfeat. simpl. repeat split.
  destruct (combined_cds t) as [|c r] eqn:Hcds; simpl; [done|].
  destruct (decide (c :: r = [])); [done|].
  rewrite decide_True; [done|].
  assert (length (insert_by key01_le c (sorted_by key01_le r)) = S (length r)) as ->
    by (rewrite insert_by_perm; simpl; by rewrite sorted_by_length).
  lia.
Qed.

(** X7. After a successful [finalize] the transcript holds exactly one internal
    ORF, selected as the best one; it lists every exon, CDS and UTR segment of
    the transcript once, typed, in the order of (start, end, kind). *)
Theorem finalize_single_orf (t t' : transcript) :
  finalized t = false ->
  finalize t = Returned t' ->
  internal_orfs t' = [segments t']
  /\ selected_internal_orf_index t' = Some 0%nat
  /\ segments t' ≡ₚ typed_lists t'
  /\ Sorted (fun a b => key120_le a b = true) (segments t').
Proof.
  intros Hfin H.
  destruct (finalize_lists t t' Hfin H) as (Ho & Hs & Hi & _).
  repeat split; try done.
  - rewrite Hs. apply sorted_by_perm.
  - rewrite Hs. apply sorted_by_sorted, key120_le_total.
Qed.

Lemma finalize_single_orf_witness :
  internal_orfs t_final = [segments t_final]
  /\ selected_internal_orf_index t_final = Some 0%nat
  /\ segments t_final ≡ₚ typed_lists t_final
  /\ Sorted (fun a b => key120_le a b = true) (segments t_final).
Proof.
  apply (finalize_single_orf t_raw t_final); [reflexivity | apply finalize_t_raw].
Defined.

(** X8. [finalize] marks the transcript as [mRNA] exactly when it carries CDS;
    without CDS the feature is left as it was. *)
Theorem finalize_feature (t t' : transcript) :
  finalized t = false ->
  finalize t = Returned t' ->
  (combined_cds t' <> [] -> feature t' = "mRNA")
  /\ (combined_cds t' = [] -> feature t' = feature t).
Proof.
  intros Hfin H.
  destruct (finalize_lists t t' Hfin H) as (_ & _ & _ & Hc & _ & Hf).
  rewrite Hf, Hc, sorted_by_nil_iff.
  destruct (decide (combined_cds t = [])); split; intros; done.
Qed.

Lemma finalize_feature_witness :
  (combined_cds t_final <> [] -> feature t_final = "mRNA")
  /\ (combined_cds t_final = [] -> feature t_final = feature t_raw).
Proof.
  apply (finalize_feature t_raw t_final); [reflexivity | apply finalize_t_raw].
Defined.

(** X9. A transcript that [finalize] has just accepted is never split: with
    the configuration loaded, [split_by_cds] yields the transcript itself and
    leaves it unchanged, whatever the branch for several ORFs would do. *)
Theorem finalize_then_split
    (split_orfs : json_conf -> transcript -> exn + list transcript)
    (t t' : transcript) (conf : json_conf) :
  finalized t = false ->
  json_dict t = Some conf ->
  finalize t = Returned t' ->
  split_by_cds split_orfs t' = (t', inr [Self]).
Proof.
  intros Hfin Hconf H.
  destruct (finalize_lists t t' Hfin H) as (Ho & _ & _ & _ & Hj & _).
  apply finalize_returned in H as (_ & _ & _ & _ & _ & _ & _ & _ & _ & _ & Hf & _); [|done].
  unfold split_by_cds, finalize. rewrite Hf, Hj, Hconf.
  unfold number_internal_orfs. rewrite Ho. reflexivity.
Qed.

Lemma finalize_then_split_witness :
  split_by_cds (fun _ _ => inl TypeError) t_final = (t_final, inr [Self]).
Proof.
  apply (finalize_then_split (fun _ _ => inl TypeError) t_raw t_final conf0).
  - reflexivity.
  - reflexivity.
  - apply finalize_t_raw.
Defined.

(** *** The selected ORF of a freshly finalized transcript *)

Lemma typed_total_perm (k : seg_kind) (l l' : list typed_segment) :
  l ≡ₚ l' -> typed_total k l = typed_total k l'.
Proof. intros Hp. unfold typed_total. apply sum_perm. by rewrite Hp. Qed.

Lemma typed_total_app (k : seg_kind) (l l' : list typed_segment) :
  typed_total k (l ++ l') = typed_total k l + typed_total k l'.
Proof.
  unfold typed_total. rewrite filter_app.
  induction (filter _ l) as [|x r IH]; simpl; lia.
Qed.

Lemma typed_total_map (k k' : seg_kind) (l : list segment) :
  typed_total k (map (fun s : segment => (k', s.1, s.2)) l)
  = if decide (k' = k) then total_length l else 0.
Proof.
  unfold typed_total. induction l as [|s r IH]; simpl.
  - by destruct (decide (k' = k)).
  - rewrite filter_cons. unfold ts_kind at 1. simpl.
    destruct (decide (k' = k)); simpl; rewrite IH; unfold ts_end, ts_start, seg_len; simpl; lia.
Qed.

Lemma typed_total_lists (t : transcript) :
  typed_total CDS (typed_lists t) = combined_cds_length t
  /\ typed_total UTR (typed_lists t) = combined_utr_length t
  /\ typed_total exon (typed_lists t) = cdna_length t.
Proof.
  unfold typed_lists, combined_cds_length, combined_utr_length, cdna_length.
  rewrite !typed_total_app, !typed_total_map. simpl. repeat split; lia.
Qed.

(** X10. On a freshly finalized transcript the selected ORF is the whole
    annotated CDS: [selected_cds_length] equals [combined_cds_length], and
    no CDS lies outside the selected ORF ([cds_not_maximal] is 0). *)
Theorem finalize_selected_cds (t t' : transcript) :
  finalized t = false ->
  finalize t = Returned t' ->
  selected_cds_length t' = Ok (combined_cds_length t')
  /\ cds_not_maximal t' = Ok 0.
Proof.
  intros Hfin H.
  destruct (finalize_lists t t' Hfin H) as (Ho & Hs & Hi & _).
  split.
  - unfold selected_cds_length. rewrite Hi, Ho. simpl.
    destruct (decide (length (combined_cds t') = 0%nat)) as [Hz | Hnz].
    + unfold combined_cds_length. by destruct (combined_cds t').
    + f_equal. rewrite Hs, (typed_total_perm _ _ _ (sorted_by_perm _ _)).
      apply typed_total_lists.
  - unfold cds_not_maximal. rewrite Ho. reflexivity.
Qed.

Lemma finalize_selected_cds_witness :
  selected_cds_length t_final = Ok (combined_cds_length t_final)
  /\ cds_not_maximal t_final = Ok 0.
Proof.
  apply (finalize_selected_cds t_raw t_final); [reflexivity | apply finalize_t_raw].
Defined.

(** *** The overlap primitive and the edge predicates *)

(** X11. For two intervals stored with start <= end, [overlap] is not
    negative exactly when they share a position, and it does not depend on
    the order of its arguments; so an overlap of 0 is one shared position. *)
Theorem overlap_nonneg_iff_shared (a b : segment) :
  wf_segment a -> wf_segment b ->
  overlap a b = overlap b a
  /\ (overlap a b >= 0 <-> exists p, (a.1 <= p <= a.2) /\ (b.1 <= p <= b.2))
  /\ (overlap a b >= 0 -> size (positions a ∩ positions b) = Z.to_nat (overlap a b + 1)).
Proof.
  unfold wf_segment, overlap. intros Ha Hb. cbv zeta. split; [lia|]. split.
  - split.
    + intros Ho. exists (Z.max a.1 b.1). lia.
    + intros (p & ? & ?). lia.
  - intros Ho.
    assert (positions a ∩ positions b
            = list_to_set (seqZ (Z.max a.1 b.1) (Z.min a.2 b.2 - Z.max a.1 b.1 + 1))) as ->.
    { apply set_eq. intros p. unfold positions.
      rewrite elem_of_intersection, !elem_of_list_to_set, !elem_of_seqZ. lia. }
    rewrite size_list_to_set by apply NoDup_seqZ.
    by rewrite length_seqZ.
Qed.

Lemma overlap_nonneg_iff_shared_witness :
  overlap (1, 100) (100, 220) = overlap (100, 220) (1, 100)
  /\ (overlap (1, 100) (100, 220) >= 0
      <-> exists p, (1 <= p <= 100) /\ (100 <= p <= 220))
  /\ (overlap (1, 100) (100, 220) >= 0
      -> size (positions (1, 100) ∩ positions (100, 220))
         = Z.to_nat (overlap (1, 100) (100, 220) + 1)).
Proof.
  apply (overlap_nonneg_iff_shared (1, 100) (100, 220)); unfold wf_segment; simpl; lia.
Defined.

(** X12. The two edge predicates of the class, [is_overlapping_cds] on ORFs
    and [is_intersecting] on intervals, are symmetric and never relate an
    object to itself: the graphs built from them are undirected and have no
    self-edges. *)
Theorem edge_predicates_symmetric :
  (forall a b : orf, is_overlapping_cds a b = is_overlapping_cds b a)
  /\ (forall a : orf, is_overlapping_cds a a = false)
  /\ (forall a b : segment, is_intersecting a b = is_intersecting b a)
  /\ (forall a : segment, is_intersecting a a = false).
Proof.
  unfold is_overlapping_cds, is_intersecting, overlap. cbv zeta. simpl.
  repeat split.
  - intros a b. repeat case_decide; try done.
    + exfalso. destruct H as [-> | [H | H]]; apply H0; [by left | right; left; congruence |].
      right. right. lia.
    + exfalso. destruct H0 as [-> | [H0 | H0]]; apply H; [by left | right; left; congruence |].
      right. right. lia.
  - intros a. rewrite decide_True; [done | by left].
  - intros a b. repeat case_decide; try done.
    + exfalso. destruct H as [-> | H]; apply H0; [by left | right; lia].
    + exfalso. destruct H0 as [-> | H0]; apply H; [by left | right; lia].
  - intros a. rewrite decide_True; [done | by left].
Qed.

(** ** Further properties of [superlocus.py] *)

Module SuperlocusMore.
Import Superlocus.

(** X13. The sublocus predicate is symmetric and never relates a transcript
    to itself, for either value of [cds_only]: the transcript graph is
    undirected and has no self-edges. *)
Theorem is_intersecting_symmetric (t1 t2 : Transcript) (cds_only : bool) :
  is_intersecting t1 t2 cds_only = is_intersecting t2 t1 cds_only
  /\ is_intersecting t1 t1 cds_only = false.
Proof.
  unfold is_intersecting, overlap. simpl. split.
  - destruct (decide (id t1 = id t2)) as [Hid | Hid].
    + rewrite decide_True by done. done.
    + rewrite (decide_False (P := id t2 = id t1)) by congruence.
      rewrite (intersection_comm_L (introns t1)),
        (intersection_comm_L (combined_cds_introns t1)).
      destruct (monoexonic t1), (monoexonic t2); simpl; try done.
      rewrite (Z.min_comm (end_ t2)), (Z.max_comm (start t2)).
      destruct (decide (start t1 = start t2 \/ end_ t1 = end_ t2)) as [H | H].
      * rewrite decide_True; [done | intuition congruence].
      * rewrite decide_False; [done | intuition congruence].
  - rewrite decide_True; done.
Qed.



Section submissions.
Variable loci_defined : bool.
Variable report : bool.
Variable loci : gmap string string.
Variable transcripts : gmap string Transcript.
Variable cliques : list (gset string).



End submissions.

(** Entered with the loci undefined and [report] on, the method submits the
    three candidates of the worked superlocus twice. *)
Example two_cliques_submitted_twice :
  define_alternative_splicing false true one_locus four_transcripts two_cliques
  = [("L", "a"); ("L", "b"); ("L", "t"); ("L", "a"); ("L", "b"); ("L", "t")].
Proof. vm_compute. reflexivity. Qed.


End SuperlocusMore.

(** ** Further properties of [transcript.py]: ORF loading and the metrics *)

(** *** [load_orfs] when the database does not know the transcript *)



Lemma total_length_nonneg (l : list segment) : Forall wf_segment l -> 0 <= total_length l.
Proof.
  induction 1 as [|s r Hs Hr IH]; simpl; [lia|].
  unfold wf_segment, seg_len in *. lia.
Qed.

(** *** The distance of the CDS start from the transcript start site *)

Lemma tss_forward_located (t : transcript) (pre post : list segment) (ex : segment)
    (d : Z) :
  Forall (fun e => e.2 < combined_cds_start t) pre ->
  ex.1 <= combined_cds_start t <= ex.2 ->
  tss_forward t (pre ++ ex :: post) d
  = d + total_length pre + (combined_cds_start t - ex.1 + 1).
Proof.
  intros Hpre Hex. revert d.
  induction Hpre as [|e pre He Hpre IH]; intros d; simpl.
  - rewrite decide_True by lia. lia.
  - rewrite decide_False by lia. rewrite IH. unfold seg_len. lia.
Qed.

Lemma tss_backward_located (t : transcript) (l r : list segment) (ex : segment)
    (d : Z) :
  Forall (fun e => combined_cds_start t < e.1) l ->
  ex.1 <= combined_cds_start t <= ex.2 ->
  tss_backward t (l ++ ex :: r) d
  = d + total_length l + (ex.2 - combined_cds_start t + 1).
Proof.
  intros Hl Hex. revert d.
  induction Hl as [|e l He Hl IH]; intros d; simpl.
  - rewrite decide_True by lia. lia.
  - rewrite decide_False by lia. rewrite IH. unfold seg_len. lia.
Qed.

Lemma chain_around (pre post : list segment) (ex : segment) :
  chain (pre ++ ex :: post) -> Forall wf_segment (pre ++ ex :: post) ->
  Forall (fun e => e.2 < ex.1) pre /\ Forall (fun e => ex.2 < e.1) post.
Proof.
  induction pre as [|a pre IH]; simpl; intros Hc Hwf.
  - split; [constructor|]. by apply chain_after.
  - pose proof (chain_after _ _ Hc Hwf) as Haft.
    apply Forall_app in Haft as [_ Haft]. apply Forall_cons in Haft as [Ha _].
    apply chain_tail in Hc. apply Forall_cons in Hwf as [_ Hwf].
    destruct (IH Hc Hwf) as [Hp Hq]. split; [by constructor | done].
Qed.

(** X22. Where the start of the combined CDS falls in an exon of a transcript
    whose exons are well formed, ordered and disjoint,
    [start_distance_from_tss] is the number of exonic bases from the
    transcript start site up to and including that position: on ["+"] the
    exons before that one plus the part of it up to the CDS start, on ["-"]
    the exons after it plus the part of it from the CDS start on, and 0 when
    the strand is unknown. On a known strand it lies between 1 and the cDNA
    length. *)
Theorem start_distance_from_tss_located (t : transcript) (pre post : list segment)
    (ex : segment) :
  combined_cds t <> [] ->
  exons t = pre ++ ex :: post ->
  chain (exons t) ->
  Forall wf_segment (exons t) ->
  ex.1 <= combined_cds_start t <= ex.2 ->
  start_distance_from_tss t
  = match strand t with
    | Some Plus => total_length pre + (combined_cds_start t - ex.1 + 1)
    | Some Minus => total_length post + (ex.2 - combined_cds_start t + 1)
    | None => 0
    end
  /\ (strand t <> None -> 1 <= start_distance_from_tss t <= cdna_length t).
Proof.
  intros Hcds He Hc Hwf Hex.
  unfold cdna_length. rewrite He in *.
  destruct (chain_around pre post ex Hc Hwf) as [Hpre Hpost].
  apply Forall_app in Hwf as [Hwpre Hwpost].
  apply Forall_cons in Hwpost as [Hwex Hwpost].
  pose proof (total_length_nonneg pre Hwpre) as Hnpre.
  pose proof (total_length_nonneg post Hwpost) as Hnpost.
  assert (total_length (pre ++ ex :: post)
          = total_length pre + seg_len ex + total_length post) as Htot.
  { clear. induction pre as [|a pre IH]; simpl; [lia|]. rewrite IH. lia. }
  assert (start_distance_from_tss t
          = match strand t with
            | Some Plus => total_length pre + (combined_cds_start t - ex.1 + 1)
            | Some Minus => total_length post + (ex.2 - combined_cds_start t + 1)
            | None => 0
            end) as Heq.
  { unfold start_distance_from_tss. rewrite He.
    rewrite decide_False by (by destruct (combined_cds t)).
    destruct (strand t) as [[|]|] eqn:Hs.
    - rewrite decide_True by done. rewrite tss_forward_located; [lia | | done].
      eapply Forall_impl; [exact Hpre|]. simpl. intros; lia.
    - rewrite decide_False by done. rewrite decide_True by done.
      rewrite reverse_app, reverse_cons, <- app_assoc. simpl app.
      rewrite tss_backward_located; [| | done].
      + rewrite (total_length_perm (reverse post) post) by apply reverse_Permutation. lia.
      + apply Forall_reverse. eapply Forall_impl; [exact Hpost|]. simpl. intros; lia.
    - rewrite decide_False by done. by rewrite decide_False. }
  split; [exact Heq|].
  intros Hs. rewrite Heq, Htot. unfold seg_len.
  destruct (strand t) as [[|]|]; [lia | lia | done].
Qed.

Lemma start_distance_from_tss_located_witness :
  start_distance_from_tss t_minus
  = match strand t_minus with
    | Some Plus => total_length [(100, 200)] + (combined_cds_start t_minus - 301 + 1)
    | Some Minus => total_length [] + (500 - combined_cds_start t_minus + 1)
    | None => 0
    end
  /\ (strand t_minus <> None -> 1 <= start_distance_from_tss t_minus <= cdna_length t_minus).
Proof.
  apply (start_distance_from_tss_located t_minus [(100, 200)] [] (301, 500)).
  - discriminate.
  - reflexivity.
  - simpl. lia.
  - repeat constructor; unfold wf_segment; simpl; lia.
  - vm_compute. split; discriminate.
Defined.

(** *** The ends of the combined CDS *)

Lemma chain_bounds (a : segment) (r : list segment) :
  chain (a :: r) -> Forall wf_segment (a :: r) ->
  Forall (fun c => a.1 <= c.1 /\ c.2 <= (default a (last r)).2) (a :: r).
Proof.
  revert a. induction r as [|b r IH]; intros a Hc Hwf.
  - constructor; [|constructor]. simpl. apply Forall_cons in Hwf as [Ha _].
    unfold wf_segment in Ha. lia.
  - destruct Hc as [Hab Hc]. apply Forall_cons in Hwf as [Ha Hwf].
    pose proof (IH b Hc Hwf) as Hb.
    assert (default a (last (b :: r)) = default b (last r)) as ->.
    { rewrite last_cons. by destruct (last r). }
    pose proof Hb as Hb'. apply Forall_cons in Hb' as [[_ Hbz] _].
    pose proof Hwf as Hwf'. apply Forall_cons in Hwf' as [Hwb _].
    unfold wf_segment in *.
    constructor; [lia|].
    eapply Forall_impl; [exact Hb|]. simpl. intros c [? ?]. lia.
Qed.

(** X23. With a combined CDS whose segments are well formed, ordered and
    disjoint, [combined_cds_start] and [combined_cds_end] bracket every CDS
    segment: on ["+"] the start is the lowest and the end the highest CDS
    position, on ["-"] the start is the highest and the end the lowest. With
    an unknown strand both are the highest CDS position. *)
Theorem combined_cds_ends (t : transcript) :
  combined_cds t <> [] ->
  chain (combined_cds t) ->
  Forall wf_segment (combined_cds t) ->
  match strand t with
  | Some Plus =>
      Forall (fun c => combined_cds_start t <= c.1 /\ c.2 <= combined_cds_end t)
             (combined_cds t)
  | Some Minus =>
      Forall (fun c => combined_cds_end t <= c.1 /\ c.2 <= combined_cds_start t)
             (combined_cds t)
  | None =>
      combined_cds_start t = combined_cds_end t
      /\ Forall (fun c => c.2 <= combined_cds_end t) (combined_cds t)
  end.
Proof.
  intros Hne Hc Hwf. unfold combined_cds_start, combined_cds_end.
  destruct (combined_cds t) as [|c r]; [done|].
  pose proof (chain_bounds c r Hc Hwf) as Hb.
  destruct (strand t) as [[|]|].
  - repeat case_decide; try done.
  - repeat case_decide; try done.
  - repeat case_decide; try done. split; [done|].
    eapply Forall_impl; [exact Hb|]. simpl. intros ? [_ ?]. done.
Qed.

Lemma combined_cds_ends_witness :
  match strand t_minus with
  | Some Plus =>
      Forall (fun c => combined_cds_start t_minus <= c.1 /\ c.2 <= combined_cds_end t_minus)
             (combined_cds t_minus)
  | Some Minus =>
      Forall (fun c => combined_cds_end t_minus <= c.1 /\ c.2 <= combined_cds_start t_minus)
             (combined_cds t_minus)
  | None =>
      combined_cds_start t_minus = combined_cds_end t_minus
      /\ Forall (fun c => c.2 <= combined_cds_end t_minus) (combined_cds t_minus)
  end.
Proof.
  apply (combined_cds_ends t_minus).
  - discriminate.
  - simpl. lia.
  - repeat constructor; unfold wf_segment; simpl; lia.
Defined.

(** *** The distance of the CDS end from the transcript end site *)

(** X24. [end_distance_from_tes] never returns a distance other than 0: it
    raises [AttributeError] exactly when the transcript has a combined CDS,
    lies on ["-"] and has an exon, and returns 0 in every other case. *)
Theorem end_distance_from_tes_outcomes (t : transcript) :
  (end_distance_from_tes t = Err AttributeError
   <-> (combined_cds t <> [] /\ strand t = Some Minus /\ exons t <> []))
  /\ (end_distance_from_tes t = Err AttributeError \/ end_distance_from_tes t = Ok 0).
Proof.
  unfold end_distance_from_tes.
  destruct (combined_cds t) as [|c r] eqn:Hc; simpl.
  - split; [|by right]. split; [done | by intros [? _]].
  - destruct (decide (strand t = Some Minus)) as [Hs | Hs].
    + destruct (exons t) as [|e es]; simpl.
      * split; [|by right]. split; [done | by intros (_ & _ & ?)].
      * split; [|by left]. split; [done | done].
    + split; [|by right]. split; [done | by intros (_ & ? & _)].
Qed.
